(** * create_globe: orthographic globe renderer

    A shallow embedding of the command-line script that renders an
    orthographic globe highlighting a set of countries
    ([src/unnamed/part_000], the multi-country script) and of its
    single-country variant ([src/globe/create_globe.js]).

    Conventions of the embedding:
    - JavaScript numbers are IEEE binary64, modelled by primitive floats;
    - JavaScript strings are modelled by byte strings holding UTF-8 text;
    - the top-level [let]/[const] bindings of the script are the fields of
      the record [Globals];
    - console output, process exit, uncaught exceptions and file-system
      calls are explicit in the monad [M];
    - the libraries the script calls (d3-geo, d3-selection over jsdom,
      topojson-client, Node's [fs] and [path], [JSON.parse], Unicode upper
      casing, number formatting) are not part of the repository; they are
      the fields of the class [Externals]. *)

From Stdlib Require Import String Ascii List Bool ZArith.
From Stdlib Require Import DecimalString.
From Stdlib Require Import PrimFloat SpecFloat FloatOps.
Import ListNotations.

Set Warnings "-register-all".

Local Open Scope string_scope.
Local Open Scope list_scope.

(** ** JavaScript values *)

Module JS.

(** Primitive values: what a feature property read from the dataset, or a
    command-line token, can be. [PUndefined] is the result of reading a
    missing property. *)
Inductive prim : Type :=
| PUndefined
| PNull
| PBool (b : bool)
| PNum (x : float)
| PStr (s : string).

(** Decoded JSON text.  The member list of [JObj] is in [Object.keys]
    order and holds each key once. *)
Inductive json : Type :=
| JNull
| JBool (b : bool)
| JNum (x : float)
| JStr (s : string)
| JArr (items : list json)
| JObj (members : list (string * json)).

(** ToBoolean on numbers: NaN, +0 and -0 are falsy. *)
Definition truthy_num (x : float) : bool :=
  negb (PrimFloat.is_nan x || PrimFloat.is_zero x).

(** ToBoolean on strings: only the empty string is falsy. *)
Definition truthy_str (s : string) : bool :=
  match s with EmptyString => false | String _ _ => true end.

(** ToBoolean on an optional string ([undefined], [null] or a string). *)
Definition truthy_ostr (o : option string) : bool :=
  match o with None => false | Some s => truthy_str s end.

(** ToBoolean on the result of a member access on decoded JSON; [None]
    is [undefined]. *)
Definition truthy_json (v : option json) : bool :=
  match v with
  | None | Some JNull => false
  | Some (JBool b) => b
  | Some (JNum x) => truthy_num x
  | Some (JStr s) => truthy_str s
  | Some (JArr _) | Some (JObj _) => true
  end.

(** The value is [undefined] or [null]: a member access on it throws. *)
Definition nullish (v : option json) : bool :=
  match v with
  | None | Some JNull => true
  | Some _ => false
  end.

(** [a || b] on numbers. *)
Definition or_num (a b : float) : float := if truthy_num a then a else b.

(** [a || b] where [a] is a string or undefined and [b] a string. *)
Definition or_str (a : option string) (b : string) : string :=
  match a with
  | Some s => if truthy_str s then s else b
  | None => b
  end.

(** [a || b] where both sides may be undefined or null. *)
Definition or_ostr (a b : option string) : option string :=
  if truthy_ostr a then a else b.

(** SameValueZero, the comparison of [Array.prototype.includes]. *)
Definition sameValueZero (a b : prim) : bool :=
  match a, b with
  | PUndefined, PUndefined => true
  | PNull, PNull => true
  | PBool x, PBool y => Bool.eqb x y
  | PNum x, PNum y =>
      PrimFloat.eqb x y || (PrimFloat.is_nan x && PrimFloat.is_nan y)
  | PStr s, PStr t => String.eqb s t
  | _, _ => false
  end.

(** Strict equality [===]. *)
Definition strictEq (a b : prim) : bool :=
  match a, b with
  | PUndefined, PUndefined => true
  | PNull, PNull => true
  | PBool x, PBool y => Bool.eqb x y
  | PNum x, PNum y => PrimFloat.eqb x y
  | PStr s, PStr t => String.eqb s t
  | _, _ => false
  end.

(** [arr.includes(v)]. *)
Definition includes (arr : list prim) (v : prim) : bool :=
  existsb (fun a => sameValueZero a v) arr.

(** [arr.find(p)]; [None] is [undefined]. *)
Definition find {A : Type} (p : A -> bool) (arr : list A) : option A :=
  List.find p arr.

(** ** Strings *)

(** One white-space or line-terminator character at the front of UTF-8
    text (ECMAScript WhiteSpace and LineTerminator): the text after it. *)
Definition strip_ws_char (s : string) : option string :=
  match s with
  | String c r =>
      match nat_of_ascii c with
      | 9 | 10 | 11 | 12 | 13 | 32 => Some r
      | 194 => (* U+00A0 *)
          match r with
          | String d r' => if Nat.eqb (nat_of_ascii d) 160 then Some r' else None
          | _ => None
          end
      | 225 => (* U+1680 *)
          match r with
          | String d (String e r') =>
              if Nat.eqb (nat_of_ascii d) 154 && Nat.eqb (nat_of_ascii e) 128
              then Some r' else None
          | _ => None
          end
      | 226 => (* U+2000..U+200A, U+2028, U+2029, U+202F, U+205F *)
          match r with
          | String d (String e r') =>
              let d := nat_of_ascii d in
              let e := nat_of_ascii e in
              if Nat.eqb d 128
                 && ((Nat.leb 128 e && Nat.leb e 138)
                     || Nat.eqb e 168 || Nat.eqb e 169 || Nat.eqb e 175)
              then Some r'
              else if Nat.eqb d 129 && Nat.eqb e 159 then Some r'
              else None
          | _ => None
          end
      | 227 => (* U+3000 *)
          match r with
          | String d (String e r') =>
              if Nat.eqb (nat_of_ascii d) 128 && Nat.eqb (nat_of_ascii e) 128
              then Some r' else None
          | _ => None
          end
      | 239 => (* U+FEFF *)
          match r with
          | String d (String e r') =>
              if Nat.eqb (nat_of_ascii d) 187 && Nat.eqb (nat_of_ascii e) 191
              then Some r' else None
          | _ => None
          end
      | _ => None
      end
  | EmptyString => None
  end.

(** [s.trimStart()].  The fuel bounds the number of characters removed
    by the length of the text. *)
Fixpoint trimStart_fuel (fuel : nat) (s : string) : string :=
  match fuel with
  | O => s
  | S fuel' =>
      match strip_ws_char s with
      | Some r => trimStart_fuel fuel' r
      | None => s
      end
  end.

Definition trimStart (s : string) : string :=
  trimStart_fuel (String.length s) s.

(** The text is white space only. *)
Definition all_ws (s : string) : bool :=
  match trimStart s with EmptyString => true | _ => false end.

(** [s.trimEnd()]: the text up to the point where only white space
    follows. *)
Fixpoint trimEnd (s : string) : string :=
  if all_ws s then EmptyString
  else match s with
       | EmptyString => EmptyString
       | String c r => String c (trimEnd r)
       end.

(** [s.trim()]. *)
Definition trim (s : string) : string := trimEnd (trimStart s).

(** [s.split(',')]. *)
Fixpoint split_comma (s : string) : list string :=
  match s with
  | EmptyString => [EmptyString]
  | String c r =>
      if Ascii.eqb c ","%char then EmptyString :: split_comma r
      else match split_comma r with
           | [] => [String c EmptyString]
           | h :: t => String c h :: t
           end
  end.

(** [arr.join(',')]. *)
Definition join_comma (arr : list string) : string := String.concat "," arr.

(** ** parseInt(_, 10) *)

Definition digit_of (c : ascii) : option Z :=
  let n := nat_of_ascii c in
  if Nat.leb 48 n && Nat.leb n 57 then Some (Z.of_nat (n - 48)) else None.

(** The longest prefix of decimal digits, most significant first. *)
Fixpoint digits_prefix (s : string) : list Z :=
  match s with
  | String c r =>
      match digit_of c with
      | Some d => d :: digits_prefix r
      | None => []
      end
  | EmptyString => []
  end.

Definition digits_value (ds : list Z) : Z :=
  fold_left (fun acc d => (10 * acc + d)%Z) ds 0%Z.

(** The Number value of a mathematical integer (round to nearest, ties to
    even; overflow gives an infinity).  ECMAScript lets an implementation
    approximate the digits after the twentieth; the exact value is taken
    here. *)
Definition number_of_Z (z : Z) : float :=
  SF2Prim (binary_normalize prec emax z 0 false).

(** [parseInt(arg, 10)]; [None] is an [undefined] argument, which
    ToString turns into the text "undefined".  NaN when no digit
    follows the optional sign. *)
Definition parseInt (arg : option string) : float :=
  let inputString := match arg with Some s => s | None => "undefined" end in
  let str := trimStart inputString in
  let '(negative, str) :=
    match str with
    | String "-"%char r => (true, r)
    | String "+"%char r => (false, r)
    | _ => (false, str)
    end in
  match digits_prefix str with
  | [] => PrimFloat.nan
  | ds =>
      let mathInt := digits_value ds in
      if Z.eqb mathInt 0
      then (if negative then PrimFloat.neg_zero else PrimFloat.zero)
      else number_of_Z (if negative then (- mathInt)%Z else mathInt)
  end.

(** Decimal text of an array index. *)
Definition index_string (n : nat) : string :=
  NilZero.string_of_uint (Nat.to_uint n).

(** Number of UTF-16 code units of UTF-8 text: the [length] of a
    JavaScript string. *)
Fixpoint utf16_length (s : string) : nat :=
  match s with
  | EmptyString => 0
  | String c r =>
      let b := nat_of_ascii c in
      (if Nat.ltb b 128 then 1
       else if Nat.ltb b 192 then 0
       else if Nat.ltb b 240 then 1
       else 2) + utf16_length r
  end.

(** [Object.keys(v)] for a decoded JSON value. *)
Definition Object_keys (v : json) : list string :=
  match v with
  | JObj members => map fst members
  | JArr items => map index_string (seq 0 (length items))
  | JStr s => map index_string (seq 0 (utf16_length s))
  | JNull | JBool _ | JNum _ => []
  end.

(** Lookup of a key in a member list. *)
Fixpoint lookup (k : string) (members : list (string * json)) : option json :=
  match members with
  | [] => None
  | (k', v) :: rest => if String.eqb k k' then Some v else lookup k rest
  end.

(** [v.name] for a non-null decoded JSON value and one of the names the
    script reads ([objects], [countries]), which no prototype defines:
    only objects have such members. *)
Definition member (v : json) (name : string) : option json :=
  match v with
  | JObj members => lookup name members
  | _ => None
  end.

End JS.

Import JS.

(** ** Data model *)

(** The [properties] object of a decoded feature, restricted to the two
    members the script reads.  Their values are primitives, as the dataset
    stores them; a missing member reads as [PUndefined]. *)
Record Properties : Type := mkProperties {
  iso3 : prim;
  secondary_territory : prim
}.

(** A GeoJSON feature as returned by [topojson.feature(..).features]. *)
Record Feature (Geometry : Type) : Type := mkFeature {
  properties : Properties;
  geometry : Geometry
}.
Arguments mkFeature {Geometry} _ _.
Arguments properties {Geometry} _.
Arguments geometry {Geometry} _.

(** The objects handed to the path generator: the datum bound to each
    drawn element. *)
Inductive GeoObject (Geometry : Type) : Type :=
| Sphere
| FeatureObject (d : Feature Geometry)
| Graticule (stepLon stepLat : float).
Arguments Sphere {Geometry}.
Arguments FeatureObject {Geometry} _.
Arguments Graticule {Geometry} _ _.

(** A projection, as the setter calls made on it: [None] is a setter that
    was never called (the library's default, the identity for [rotate]). *)
Record Projection : Type := mkProjection {
  scale : option float;
  translate : option (float * float);
  clipAngle : option float;
  rotate : option (float * float)
}.

(** [geoOrthographic()]. *)
Definition geoOrthographic : Projection :=
  {| scale := None; translate := None; clipAngle := None; rotate := None |}.

Definition set_scale (k : float) (p : Projection) : Projection :=
  {| scale := Some k; translate := translate p;
     clipAngle := clipAngle p; rotate := rotate p |}.

Definition set_translate (t : float * float) (p : Projection) : Projection :=
  {| scale := scale p; translate := Some t;
     clipAngle := clipAngle p; rotate := rotate p |}.

Definition set_clipAngle (a : float) (p : Projection) : Projection :=
  {| scale := scale p; translate := translate p;
     clipAngle := Some a; rotate := rotate p |}.

Definition set_rotate (r : float * float) (p : Projection) : Projection :=
  {| scale := scale p; translate := translate p;
     clipAngle := clipAngle p; rotate := Some r |}.

(** [projection.rotate()] read back, in degrees: two-axis rotation, the
    identity when never set. *)
Definition rotation (p : Projection) : float * float :=
  match rotate p with
  | Some r => r
  | None => (0%float, 0%float)
  end.

(** A DOM element: tag, attributes in insertion order, children. *)
Inductive Node : Type :=
| Elem (tag : string) (attrs : list (string * string)) (children : list Node).

Definition tagName (n : Node) : string := let 'Elem t _ _ := n in t.
Definition attributes (n : Node) : list (string * string) :=
  let 'Elem _ a _ := n in a.
Definition childNodes (n : Node) : list Node := let 'Elem _ _ c := n in c.

(** [document.createElement]. *)
Definition createElement (tag : string) : Node := Elem tag [] [].

Fixpoint set_assoc (name value : string) (l : list (string * string))
  : list (string * string) :=
  match l with
  | [] => [(name, value)]
  | (n, v) :: rest =>
      if String.eqb n name then (n, value) :: rest
      else (n, v) :: set_assoc name value rest
  end.

Fixpoint get_assoc (name : string) (l : list (string * string))
  : option string :=
  match l with
  | [] => None
  | (n, v) :: rest => if String.eqb n name then Some v else get_assoc name rest
  end.

Definition remove_assoc (name : string) (l : list (string * string))
  : list (string * string) :=
  filter (fun nv => negb (String.eqb (fst nv) name)) l.

Definition setAttribute (name value : string) (n : Node) : Node :=
  let 'Elem t a c := n in Elem t (set_assoc name value a) c.

Definition removeAttribute (name : string) (n : Node) : Node :=
  let 'Elem t a c := n in Elem t (remove_assoc name a) c.

Definition getAttribute (name : string) (n : Node) : option string :=
  get_assoc name (attributes n).

(** [selection.attr(name, value)]: a null value removes the attribute. *)
Definition attr (name : string) (value : option string) (n : Node) : Node :=
  match value with
  | Some v => setAttribute name v n
  | None => removeAttribute name n
  end.

(** [parent.appendChild(child)]. *)
Definition appendChild (child : Node) (parent : Node) : Node :=
  let 'Elem t a c := parent in Elem t a (c ++ [child]).

(** The class attribute holds the given class name (class lists of one
    name, the only ones the script writes). *)
Definition hasClass (cls : string) (n : Node) : bool :=
  match getAttribute "class" n with
  | Some c => String.eqb c cls
  | None => false
  end.

(** [parent.querySelectorAll('tag.cls')] over the children of [parent],
    which have no descendants of their own in this script. *)
Definition selectAll (tag cls : string) (parent : Node) : list Node :=
  filter (fun n => String.eqb (tagName n) tag && hasClass cls n)
         (childNodes parent).

(** ** External collaborators *)

Inductive Exception : Type :=
| ReadError
| SyntaxError
| TypeError
| DecodeError
| MkdirError
| WriteError.

(** The functions the script imports.  A result of [None] in a fallible
    call is a thrown exception. *)
Class Externals : Type := {
  Geometry : Type;
  FS : Type;
  (* Node: fs *)
  existsSync : FS -> string -> bool;
  readFileSync : FS -> string -> option string;
  mkdirSync_recursive : FS -> string -> option FS;
  writeFileSync : FS -> string -> string -> option FS;
  (* Node: path.join *)
  path_join : string -> string -> string;
  (* ECMAScript built-ins *)
  JSON_parse : string -> option json;
  toUpperCase : string -> string;
  Number_toString : float -> string;
  (* topojson-client: feature(topology, objects[key]).features *)
  topojson_feature : json -> json -> string -> option (list (Feature Geometry));
  (* d3-geo *)
  geoPath : Projection -> GeoObject Geometry -> option string;
  geoBounds : list (Feature Geometry) -> (float * float) * (float * float);
  geoCentroid : Feature Geometry -> float * float;
  (* jsdom: element.outerHTML *)
  outerHTML : Node -> string
}.

(** ** Effects *)

(** What the process does to its environment, in order.
    [UncaughtReport] is the report Node prints on the error stream when an
    exception reaches the top level. *)
Inductive Event : Type :=
| Stdout (line : string)
| Stderr (line : string)
| UncaughtReport (e : Exception)
| Mkdir (dir : string)
| WriteFile (path content : string).

(** The event is output on the error stream. *)
Definition onErrorStream (e : Event) : bool :=
  match e with
  | Stderr _ | UncaughtReport _ => true
  | Stdout _ | Mkdir _ | WriteFile _ _ => false
  end.

Inductive Outcome (A : Type) : Type :=
| Ret (a : A)
| Exit (code : Z)
| Throw (e : Exception).
Arguments Ret {A} _.
Arguments Exit {A} _.
Arguments Throw {A} _.

Section Effects.
Context {X : Externals}.

Record World : Type := mkWorld {
  fs : FS;
  events : list Event
}.

Definition M (A : Type) : Type := World -> Outcome A * World.

Definition ret {A} (a : A) : M A := fun w => (Ret a, w).

Definition bind {A B} (m : M A) (f : A -> M B) : M B :=
  fun w =>
    match m w with
    | (Ret a, w') => f a w'
    | (Exit c, w') => (Exit c, w')
    | (Throw e, w') => (Throw e, w')
    end.

Definition emit (e : Event) : M unit :=
  fun w => (Ret tt, {| fs := fs w; events := events w ++ [e] |}).

Definition console_log (s : string) : M unit := emit (Stdout s).
Definition console_warn (s : string) : M unit := emit (Stderr s).
Definition console_error (s : string) : M unit := emit (Stderr s).

Definition process_exit {A} (code : Z) : M A := fun w => (Exit code, w).

Definition throw {A} (e : Exception) : M A := fun w => (Throw e, w).

Definition fs_existsSync (p : string) : M bool :=
  fun w => (Ret (existsSync (fs w) p), w).

Definition fs_readFileSync (p : string) : M string :=
  fun w =>
    match readFileSync (fs w) p with
    | Some s => (Ret s, w)
    | None => (Throw ReadError, w)
    end.

Definition fs_mkdirSync (dir : string) : M unit :=
  fun w =>
    match mkdirSync_recursive (fs w) dir with
    | Some fs' => (Ret tt, {| fs := fs'; events := events w ++ [Mkdir dir] |})
    | None => (Throw MkdirError, w)
    end.

Definition fs_writeFileSync (p content : string) : M unit :=
  fun w =>
    match writeFileSync (fs w) p content with
    | Some fs' =>
        (Ret tt, {| fs := fs'; events := events w ++ [WriteFile p content] |})
    | None => (Throw WriteError, w)
    end.

(** The end of the process: its exit status and the final world.  A
    script that runs to its end exits with status 0; an uncaught
    exception is reported on the error stream and exits with status 1. *)
Definition runProcess (m : M unit) (w : World) : Z * World :=
  match m w with
  | (Ret _, w') => (0%Z, w')
  | (Exit code, w') => (code, w')
  | (Throw e, w') =>
      (1%Z, {| fs := fs w'; events := events w' ++ [UncaughtReport e] |})
  end.

(** [for (const x of xs) body(x)]. *)
Fixpoint for_of {A} (xs : list A) (body : A -> M unit) : M unit :=
  match xs with
  | [] => ret tt
  | x :: rest => bind (body x) (fun _ => for_of rest body)
  end.

End Effects.

Notation "x <- m ;; k" := (bind m (fun x => k))
  (at level 61, m at next level, right associativity).
Notation "m ;;; k" := (bind m (fun _ => k))
  (at level 61, right associativity).
Notation "x |> f" := (f x) (at level 40, left associativity, only parsing).

(** [Math.min(a, b)]. *)
Definition Math_min (a b : float) : float :=
  if PrimFloat.is_nan a || PrimFloat.is_nan b then PrimFloat.nan
  else if PrimFloat.ltb a b then a
  else if PrimFloat.ltb b a then b
  else if PrimFloat.is_zero a && PrimFloat.get_sign b then b
  else a.

(** Template-literal conversion [`${v}`] of a primitive. *)
Definition template {X : Externals} (v : prim) : string :=
  match v with
  | PUndefined => "undefined"
  | PNull => "null"
  | PBool true => "true"
  | PBool false => "false"
  | PNum x => Number_toString x
  | PStr s => s
  end.

(** ** The multi-country script ([src/unnamed/part_000]) *)

(** The option variables of the script. [None] is [undefined] or [null]. *)
Record Args : Type := mkArgs {
  iso3List : list string;
  width : float;
  height : float;
  output : option string;
  outdir : option string;
  all : bool
}.

Section Script.
Context {X : Externals}.

(** *** Command-line options *)

Definition usage : string :=
"Usage: node create_globe.js [options]

Options:
  --iso3, -i <codes>   ISO3 code(s), comma-separated (default: ETH)
  --width, -w <num>    Width of the SVG (default: 800)
  --height <num>       Height of the SVG (default: 800)
  --output, -o <file>  Output filename for single/multiple iso3 (default: <ISO3>.svg)
  --all                Generate one SVG per ISO3 into --outdir
  --outdir, -d <dir>   Directory for --all output (default: current directory)
  --help               Show help
".

Definition printHelp : M unit :=
  console_log usage ;;; process_exit 0%Z.

(** The values of the [let] declarations before the loop. *)
Definition initialArgs : Args :=
  {| iso3List := ["ETH"]; width := 800%float; height := 800%float;
     output := None; outdir := None; all := false |}.

(** One evaluation of the [switch (argv[i])] statement.  [a] is
    [argv[i]] and [next] is [argv[i+1]] ([None] past the end), the value
    [argv[++i]] reads.  The boolean result tells whether [++i] ran. *)
Definition switchCase (a : string) (next : option string) (st : Args)
  : M (bool * Args) :=
  if String.eqb a "--help" then
    printHelp ;;; ret (false, st)
  else if String.eqb a "--iso3" || String.eqb a "-i" then
    ret (true,
         {| iso3List :=
              map (fun s => toUpperCase (trim s))
                  (split_comma (or_str next (join_comma (iso3List st))));
            width := width st; height := height st; output := output st;
            outdir := outdir st; all := all st |})
  else if String.eqb a "--width" || String.eqb a "-w" then
    ret (true,
         {| iso3List := iso3List st;
            width := or_num (parseInt next) (width st);
            height := height st; output := output st;
            outdir := outdir st; all := all st |})
  else if String.eqb a "--height" then
    ret (true,
         {| iso3List := iso3List st; width := width st;
            height := or_num (parseInt next) (height st);
            output := output st; outdir := outdir st; all := all st |})
  else if String.eqb a "--output" || String.eqb a "-o" then
    ret (true,
         {| iso3List := iso3List st; width := width st; height := height st;
            output := or_ostr next (output st);
            outdir := outdir st; all := all st |})
  else if String.eqb a "--outdir" || String.eqb a "-d" then
    ret (true,
         {| iso3List := iso3List st; width := width st; height := height st;
            output := output st;
            outdir := or_ostr next (outdir st); all := all st |})
  else if String.eqb a "--all" then
    ret (false,
         {| iso3List := iso3List st; width := width st; height := height st;
            output := output st; outdir := outdir st; all := true |})
  else
    console_warn ("⚠️  Unrecognized option: " ++ a)%string ;;; ret (false, st).

(** [for (let i = 0; i < argv.length; i++) switch (argv[i]) ...], on the
    tokens from index [i] on. *)
Fixpoint argvLoop (rest : list string) (st : Args) {struct rest} : M Args :=
  match rest with
  | [] => ret st
  | a :: rest1 =>
      r <- switchCase a (hd_error rest1) st ;;
      let '(consumed, st') := r in
      if (consumed : bool) then
        match rest1 with
        | [] => ret st'
        | _ :: rest2 => argvLoop rest2 st'
        end
      else argvLoop rest1 st'
  end.

(** Default output file when not [--all]. *)
Definition defaultOutput (st : Args) : Args :=
  if negb (all st) then
    if negb (truthy_ostr (output st)) then
      {| iso3List := iso3List st; width := width st; height := height st;
         output := Some (join_comma (iso3List st) ++ ".svg")%string;
         outdir := outdir st; all := all st |}
    else st
  else st.

Definition resolveArgs (argv : list string) : M Args :=
  st <- argvLoop argv initialArgs ;;
  ret (defaultOutput st).

(** *** Input TopoJSON *)

Definition inputTopoPath : string := "wrl_polbnd_int_25m_a_unhcr.json".

(** [Object.keys(worldData.objects || {})]; [objects] is the result of
    the member access. *)
Definition topoKeys (objects : option json) : list string :=
  match objects with
  | Some o => if truthy_json objects then Object_keys o else Object_keys (JObj [])
  | None => Object_keys (JObj [])
  end.

(** [worldData.objects.countries ? 'countries' : topoKeys[0]], given the
    value of the member [countries]; [None] is [undefined]. *)
Definition topoKey (countriesMember : option json) (keys : list string)
  : option string :=
  if truthy_json countriesMember then Some "countries" else hd_error keys.

(** [countries.filter(d => d.properties.secondary_territory === 0)]. *)
Definition mainCountries (countries : list (Feature Geometry))
  : list (Feature Geometry) :=
  filter (fun d => strictEq (secondary_territory (properties d)) (PNum 0%float))
         countries.

(** [topojson.feature(worldData, worldData.objects[topoKey]).features]
    for a non-null [worldData.objects]. *)
Definition decodeFeatures (worldData objects : json) (key : option string)
  : M (list (Feature Geometry)) :=
  match key with
  | None => throw TypeError
  | Some key =>
      match topojson_feature worldData objects key with
      | None => throw DecodeError
      | Some countries => ret countries
      end
  end.

(** The statements from the existence check to the extraction of the
    features.  A member access on [null] or [undefined] throws. *)
Definition loadCountries : M (list (Feature Geometry)) :=
  present <- fs_existsSync inputTopoPath ;;
  if negb present then
    console_error ("❌  TopoJSON not found: " ++ inputTopoPath)%string ;;;
    process_exit 1%Z
  else
    topoRaw <- fs_readFileSync inputTopoPath ;;
    match JSON_parse topoRaw with
    | None => throw SyntaxError
    | Some worldData =>
        if nullish (Some worldData) then throw TypeError
        else
          let objects := member worldData "objects" in
          let keys := topoKeys objects in
          if Nat.eqb (length keys) 0 then
            console_error "❌  No topology objects found in the TopoJSON!" ;;;
            process_exit 1%Z
          else
            match objects with
            | None => throw TypeError
            | Some objs =>
                if nullish objects then throw TypeError
                else
                  decodeFeatures worldData objs
                    (topoKey (member objs "countries") keys)
            end
    end.

(** *** SVG generator *)

(** The top-level bindings [generateSvg] and the main block can read. *)
Record Globals : Type := mkGlobals {
  args : Args;
  countries : list (Feature Geometry)
}.

Definition highlightColor : string := "#EF4A60".
Definition neutralColor : string := "#D1CCCB".

(** [countries.filter(d => highlightIso3.includes(d.properties.iso3))]. *)
Definition selected (g : Globals) (highlightIso3 : list prim)
  : list (Feature Geometry) :=
  filter (fun d => includes highlightIso3 (iso3 (properties d))) (countries g).

(** The projection after the centering step. *)
Definition centeredProjection (g : Globals) (highlightIso3 : list prim)
  : Projection :=
  let width := width (args g) in
  let height := height (args g) in
  let projection :=
    geoOrthographic
    |> set_scale (Math_min width height / 2 - 2)%float
    |> set_translate ((width / 2)%float, (height / 2)%float)
    |> set_clipAngle 90%float in
  let selected := selected g highlightIso3 in
  if negb (Nat.eqb (length selected) 0) then
    let '((minLon, minLat), (maxLon, maxLat)) := geoBounds selected in
    let centerLon := ((minLon + maxLon) / 2)%float in
    let centerLat := ((minLat + maxLat) / 2)%float in
    projection |> set_rotate ((- centerLon)%float, (- centerLat)%float)
  else projection.

(** The path element [join('path')] creates for one datum. *)
Definition countryPath (projection : Projection) (highlightIso3 : list prim)
           (d : Feature Geometry) : Node :=
  createElement "path"
  |> attr "class" (Some "country")
  |> attr "d" (geoPath projection (FeatureObject d))
  |> attr "fill"
       (Some (if includes highlightIso3 (iso3 (properties d))
              then highlightColor else neutralColor))
  |> attr "stroke"
       (Some (if includes highlightIso3 (iso3 (properties d))
              then highlightColor else neutralColor))
  |> attr "stroke-width" (Some (Number_toString 0.5%float))
  |> attr "opacity" (Some (Number_toString 1%float)).

(** The [svg] element with the ocean path appended. *)
Definition svgWithOcean (width height : float) (projection : Projection)
  : Node :=
  let svg :=
    createElement "svg"
    |> attr "xmlns" (Some "http://www.w3.org/2000/svg")
    |> attr "width" (Some (Number_toString width))
    |> attr "height" (Some (Number_toString height)) in
  let ocean :=
    createElement "path"
    |> attr "d" (geoPath projection Sphere)
    |> attr "fill" (Some "white") in
  appendChild ocean svg.

Definition graticulePath (projection : Projection) : Node :=
  createElement "path"
  |> attr "d" (geoPath projection (Graticule 30%float 30%float))
  |> attr "fill" (Some "none")
  |> attr "stroke" (Some "white")
  |> attr "stroke-width" (Some (Number_toString 1%float)).

(** The [svg] element [generateSvg] serializes.  The document is new, so
    [selectAll('path.country')] is empty and every datum enters: the
    join appends one path per feature, in order. *)
Definition renderTree (g : Globals) (highlightIso3 : list prim) : Node :=
  let projection := centeredProjection g highlightIso3 in
  let svg := svgWithOcean (width (args g)) (height (args g)) projection in
  let svg :=
    fold_left (fun svg d => appendChild (countryPath projection highlightIso3 d) svg)
              (countries g) svg in
  appendChild (graticulePath projection) svg.

Definition generateSvg (g : Globals) (highlightIso3 : list prim) : M string :=
  ret (outerHTML (renderTree g highlightIso3)).

(** *** Main *)

(** The body of the batch loop for one feature. *)
Definition batchBody (g : Globals) (dir : string) (feat : Feature Geometry)
  : M unit :=
  let iso := iso3 (properties feat) in
  let filename := path_join dir (template iso ++ ".svg")%string in
  svg <- generateSvg g [iso] ;;
  fs_writeFileSync filename svg ;;;
  console_log ("✅  Written: " ++ filename)%string.

Definition main (g : Globals) : M unit :=
  if all (args g) then
    let dir := or_str (outdir (args g)) "." in
    present <- fs_existsSync dir ;;
    (if negb present then fs_mkdirSync dir else ret tt) ;;;
    for_of (mainCountries (countries g)) (batchBody g dir)
  else
    match output (args g) with
    | None => throw TypeError
    | Some output =>
        svg <- generateSvg g (map PStr (iso3List (args g))) ;;
        fs_writeFileSync output svg ;;;
        console_log ("✅  Written: " ++ output)%string
    end.

(** The whole script, top to bottom. *)
Definition script (argv : list string) : M unit :=
  st <- resolveArgs argv ;;
  countries <- loadCountries ;;
  main {| args := st; countries := countries |}.

End Script.

(** ** The single-country script ([src/globe/create_globe.js])

    Its input section (existence check, parsing, choice of the object
    collection, feature extraction) is the same code as [loadCountries],
    and its ocean and graticule paths are the same code as [svgWithOcean]
    and [graticulePath]. *)

Module CreateGlobe.

Record Args : Type := mkArgs {
  countryToHighlight : string;
  width : float;
  height : float;
  output : option string;
  outdir : option string;
  all : bool
}.

Section Script.
Context {X : Externals}.

Definition usage : string :=
"Usage: node create_globe.js [options]

Options:
  --iso3, -i <code>    ISO3 code of the country to highlight (default: ETH)
  --width, -w <num>    Width of the output SVG (default: 800)
  --height <num>       Height of the output SVG (default: 800)
  --output, -o <file>  Output filename for single-country mode (default: <ISO3>.svg)
  --all                Generate one SVG per ISO3 code
  --outdir, -d <dir>   Directory for --all output (default: current directory)
  --help               Show this help message and exit
".

Definition printHelp : M unit :=
  console_log usage ;;; process_exit 0%Z.

Definition initialArgs : Args :=
  {| countryToHighlight := "ETH"; width := 800%float; height := 800%float;
     output := None; outdir := None; all := false |}.

Definition switchCase (a : string) (next : option string) (st : Args)
  : M (bool * Args) :=
  if String.eqb a "--help" then
    printHelp ;;; ret (false, st)
  else if String.eqb a "--iso3" || String.eqb a "-i" then
    ret (true,
         {| countryToHighlight := or_str next (countryToHighlight st);
            width := width st; height := height st; output := output st;
            outdir := outdir st; all := all st |})
  else if String.eqb a "--width" || String.eqb a "-w" then
    ret (true,
         {| countryToHighlight := countryToHighlight st;
            width := or_num (parseInt next) (width st);
            height := height st; output := output st;
            outdir := outdir st; all := all st |})
  else if String.eqb a "--height" then
    ret (true,
         {| countryToHighlight := countryToHighlight st; width := width st;
            height := or_num (parseInt next) (height st);
            output := output st; outdir := outdir st; all := all st |})
  else if String.eqb a "--output" || String.eqb a "-o" then
    ret (true,
         {| countryToHighlight := countryToHighlight st; width := width st;
            height := height st;
            output := or_ostr next (output st);
            outdir := outdir st; all := all st |})
  else if String.eqb a "--outdir" || String.eqb a "-d" then
    ret (true,
         {| countryToHighlight := countryToHighlight st; width := width st;
            height := height st; output := output st;
            outdir := or_ostr next (outdir st); all := all st |})
  else if String.eqb a "--all" then
    ret (false,
         {| countryToHighlight := countryToHighlight st; width := width st;
            height := height st; output := output st;
            outdir := outdir st; all := true |})
  else
    console_warn ("⚠️  Unrecognized option: " ++ a)%string ;;; ret (false, st).

Fixpoint argvLoop (rest : list string) (st : Args) {struct rest} : M Args :=
  match rest with
  | [] => ret st
  | a :: rest1 =>
      r <- switchCase a (hd_error rest1) st ;;
      let '(consumed, st') := r in
      if (consumed : bool) then
        match rest1 with
        | [] => ret st'
        | _ :: rest2 => argvLoop rest2 st'
        end
      else argvLoop rest1 st'
  end.

(** Default output for single-country mode. *)
Definition defaultOutput (st : Args) : Args :=
  if negb (all st) && negb (truthy_ostr (output st)) then
    {| countryToHighlight := countryToHighlight st; width := width st;
       height := height st;
       output := Some (countryToHighlight st ++ ".svg")%string;
       outdir := outdir st; all := all st |}
  else st.

Definition resolveArgs (argv : list string) : M Args :=
  st <- argvLoop argv initialArgs ;;
  ret (defaultOutput st).

Record Globals : Type := mkGlobals {
  args : Args;
  countries : list (Feature Geometry)
}.

(** [countries.find(d => d.properties.iso3 === iso3)]; the parameter
    [iso3] of the source function is written [iso3'] here. *)
Definition target (g : Globals) (iso3' : prim) : option (Feature Geometry) :=
  find (fun d => strictEq (iso3 (properties d)) iso3') (countries g).

(** The projection before the centering step. *)
Definition baseProjection (g : Globals) : Projection :=
  let width := width (args g) in
  let height := height (args g) in
  geoOrthographic
  |> set_scale (Math_min width height / 2 - 2)%float
  |> set_translate ((width / 2)%float, (height / 2)%float)
  |> set_clipAngle 90%float.

(** The centering step: rotate to the centroid of the first feature
    with the code, or warn. *)
Definition centerProjection (g : Globals) (iso3' : prim) : M Projection :=
  let projection := baseProjection g in
  match target g iso3' with
  | Some target =>
      let '(lon, lat) := geoCentroid target in
      ret (projection |> set_rotate ((- lon)%float, (- lat)%float))
  | None =>
      console_warn ("⚠️  iso3 code not found: " ++ template iso3')%string ;;;
      ret projection
  end.

Definition countryPath (projection : Projection) (iso3' : prim)
           (d : Feature Geometry) : Node :=
  createElement "path"
  |> attr "class" (Some "country")
  |> attr "d" (geoPath projection (FeatureObject d))
  |> attr "fill"
       (Some (if strictEq (iso3 (properties d)) iso3'
              then highlightColor else neutralColor))
  |> attr "stroke"
       (Some (if strictEq (iso3 (properties d)) iso3'
              then highlightColor else neutralColor))
  |> attr "stroke-width" (Some (Number_toString 0.5%float))
  |> attr "opacity" (Some (Number_toString 1%float)).

Definition renderTree (g : Globals) (projection : Projection) (iso3' : prim)
  : Node :=
  let svg := svgWithOcean (width (args g)) (height (args g)) projection in
  let svg :=
    fold_left (fun svg d => appendChild (countryPath projection iso3' d) svg)
              (countries g) svg in
  appendChild (graticulePath projection) svg.

Definition generateSvg (g : Globals) (iso3' : prim) : M string :=
  projection <- centerProjection g iso3' ;;
  ret (outerHTML (renderTree g projection iso3')).

Definition batchBody (g : Globals) (dir : string) (feat : Feature Geometry)
  : M unit :=
  let iso := iso3 (properties feat) in
  let filename := path_join dir (template iso ++ ".svg")%string in
  svgString <- generateSvg g iso ;;
  fs_writeFileSync filename svgString ;;;
  console_log ("✅  Written: " ++ filename)%string.

Definition main (g : Globals) : M unit :=
  if all (args g) then
    let dir := or_str (outdir (args g)) "." in
    present <- fs_existsSync dir ;;
    (if negb present then
       fs_mkdirSync dir ;;;
       console_log ("📁  Created directory: " ++ dir)%string
     else ret tt) ;;;
    for_of (mainCountries (countries g)) (batchBody g dir)
  else
    match output (args g) with
    | None => throw TypeError
    | Some output =>
        svgString <- generateSvg g (PStr (countryToHighlight (args g))) ;;
        fs_writeFileSync output svgString ;;;
        console_log ("✅  Written: " ++ output)%string
    end.

Definition script (argv : list string) : M unit :=
  st <- resolveArgs argv ;;
  countries <- loadCountries ;;
  main {| args := st; countries := countries |}.

End Script.

End CreateGlobe.

(** ** A concrete environment

    A small instance of [Externals] on which the scripts can be run:
    an in-memory file system, a JSON reader that knows three texts,
    bounding boxes as geometries.  It is used to evaluate the model on
    examples; the general results below hold for every instance. *)

Module Demo.

Definition quote : string := String "034"%char EmptyString.

Record MemFS : Type := mkMemFS {
  files : list (string * string);
  dirs : list string
}.

Definition mem_exists (m : MemFS) (p : string) : bool :=
  existsb (String.eqb p) (dirs m) || existsb (fun f => String.eqb p (fst f)) (files m).

Definition mem_read (m : MemFS) (p : string) : option string :=
  get_assoc p (files m).

Definition mem_mkdir (m : MemFS) (p : string) : option MemFS :=
  Some {| files := files m; dirs := dirs m ++ [p] |}.

Definition mem_write (m : MemFS) (p content : string) : option MemFS :=
  Some {| files := set_assoc p content (files m); dirs := dirs m |}.

(** [path.join] on a directory name and a file name without separators. *)
Definition join (dir name : string) : string :=
  if String.eqb dir "." then name else (dir ++ "/" ++ name)%string.

(** Upper casing of ASCII letters. *)
Definition upper_char (c : ascii) : ascii :=
  let n := nat_of_ascii c in
  if Nat.leb 97 n && Nat.leb n 122 then ascii_of_nat (n - 32) else c.

Fixpoint upper (s : string) : string :=
  match s with
  | EmptyString => EmptyString
  | String c r => String (upper_char c) (upper r)
  end.

Definition decimal (z : Z) : string :=
  NilZero.string_of_uint (N.to_uint (Z.to_N z)).

Fixpoint strip_trailing_zeros (digits : list ascii) : list ascii :=
  match digits with
  | [] => []
  | c :: r =>
      match strip_trailing_zeros r with
      | [] => if Ascii.eqb c "0"%char then [] else [c]
      | r' => c :: r'
      end
  end.

(** The exact decimal expansion of a binary64 number; it is the text
    JavaScript prints for the integers and halves used below. *)
Definition number_text (x : float) : string :=
  match Prim2SF x with
  | S754_nan => "NaN"
  | S754_infinity s => if s then "-Infinity" else "Infinity"
  | S754_zero _ => "0"
  | S754_finite s m e =>
      let sign := if s then "-" else "" in
      match e with
      | Zneg k =>
          let k := Pos.to_nat k in
          let n := (Zpos m * 5 ^ Z.of_nat k)%Z in
          let int_part := (n / 10 ^ Z.of_nat k)%Z in
          let frac := (n mod 10 ^ Z.of_nat k)%Z in
          let frac_digits := list_ascii_of_string (decimal frac) in
          let padded := repeat "0"%char (k - length frac_digits) ++ frac_digits in
          match strip_trailing_zeros padded with
          | [] => (sign ++ decimal int_part)%string
          | ds => (sign ++ decimal int_part ++ "." ++ string_of_list_ascii ds)%string
          end
      | _ => (sign ++ decimal (Zpos m * 2 ^ e))%string
      end
  end.

Definition Box : Type := (float * float) * (float * float).

Definition box_union (a b : Box) : Box :=
  let '((a0, a1), (a2, a3)) := a in
  let '((b0, b1), (b2, b3)) := b in
  ((if PrimFloat.ltb b0 a0 then b0 else a0, if PrimFloat.ltb b1 a1 then b1 else a1),
   (if PrimFloat.ltb a2 b2 then b2 else a2, if PrimFloat.ltb a3 b3 then b3 else a3)).

Definition bounds (features : list (Feature Box)) : Box :=
  fold_left (fun acc d => box_union acc (geometry d)) features
    ((PrimFloat.infinity, PrimFloat.infinity),
     (PrimFloat.neg_infinity, PrimFloat.neg_infinity)).

Definition centroid (d : Feature Box) : float * float :=
  let '((a0, a1), (a2, a3)) := geometry d in
  (((a0 + a2) / 2)%float, ((a1 + a3) / 2)%float).

Definition path_data (p : Projection) (o : GeoObject Box) : option string :=
  match o with
  | Sphere => Some "M0,0A1,1,0,1,1,0,0Z"
  | FeatureObject d => Some "M0,0L1,0L1,1Z"
  | Graticule _ _ => Some "M0,0L1,1"
  end.

Fixpoint serialize (n : Node) : string :=
  let 'Elem t a c := n in
  ("<" ++ t
    ++ String.concat ""
         (map (fun kv => " " ++ fst kv ++ "=" ++ quote ++ snd kv ++ quote) a)
    ++ ">"
    ++ String.concat "" (map serialize c)
    ++ "</" ++ t ++ ">")%string.

Definition ETH : Feature Box :=
  mkFeature (mkProperties (PStr "ETH") (PNum 0%float))
            ((33%float, 3%float), (48%float, 15%float)).

Definition USA : Feature Box :=
  mkFeature (mkProperties (PStr "USA") (PNum 0%float))
            (((-125)%float, 24%float), ((-66)%float, 49%float)).

(** A secondary territory sharing the code of its main entry. *)
Definition USA_secondary : Feature Box :=
  mkFeature (mkProperties (PStr "USA") (PNum 1%float))
            ((144%float, 13%float), (145%float, 14%float)).

Definition features : list (Feature Box) := [ETH; USA_secondary; USA].

(** The text [{"objects":{"countries":{}}}]. *)
Definition topoText : string :=
  ("{" ++ quote ++ "objects" ++ quote ++ ":{"
       ++ quote ++ "countries" ++ quote ++ ":{}}}")%string.

Definition topoJson : json := JObj [("objects", JObj [("countries", JObj [])])].

Definition parse (text : string) : option json :=
  if String.eqb text topoText then Some topoJson
  else if String.eqb text "{}" then Some (JObj [])
  else if String.eqb text "null" then Some JNull
  else None.

Definition decode (topology objects : json) (key : string)
  : option (list (Feature Box)) :=
  match member objects key with
  | Some (JObj _) => Some features
  | _ => None
  end.

#[export] Instance externals : Externals := {|
  Geometry := Box;
  FS := MemFS;
  existsSync := mem_exists;
  readFileSync := mem_read;
  mkdirSync_recursive := mem_mkdir;
  writeFileSync := mem_write;
  path_join := join;
  JSON_parse := parse;
  toUpperCase := upper;
  Number_toString := number_text;
  topojson_feature := decode;
  geoPath := path_data;
  geoBounds := bounds;
  geoCentroid := centroid;
  outerHTML := serialize
|}.

(** The working directory holds the dataset. *)
Definition disk : MemFS :=
  {| files := [(inputTopoPath, topoText)]; dirs := ["."] |}.

(** The working directory is empty. *)
Definition disk_without_dataset : MemFS := {| files := []; dirs := ["."] |}.

(** The dataset file holds text that is not JSON. *)
Definition disk_garbled : MemFS :=
  {| files := [(inputTopoPath, "<html>")]; dirs := ["."] |}.

(** The dataset file holds an empty JSON object. *)
Definition disk_empty_topology : MemFS :=
  {| files := [(inputTopoPath, "{}")]; dirs := ["."] |}.

Definition boot (m : MemFS) : World := {| fs := m; events := [] |}.

Definition globals (st : Args) : Globals := {| args := st; countries := features |}.

(** The option variables after [--all --outdir maps]. *)
Definition batchArgs : Args :=
  {| iso3List := ["ETH"]; width := 800%float; height := 800%float;
     output := None; outdir := Some "maps"; all := true |}.

End Demo.

(** ** Vocabulary of the specification *)

(** An element is drawn in one colour: fill and stroke share it, and the
    stroke is 0.5 wide. *)
Definition paintedAs {X : Externals} (color : string) (el : Node) : Prop :=
  getAttribute "fill" el = Some color
  /\ getAttribute "stroke" el = Some color
  /\ getAttribute "stroke-width" el = Some (Number_toString 0.5%float).

(** Some highlighted code is the code of a loaded feature. *)
Definition someCodeMatches {X : Externals}
           (countries : list (Feature Geometry)) (h : list prim) : Prop :=
  exists code d,
    In code h /\ In d countries
    /\ sameValueZero code (iso3 (properties d)) = true.

(** The point the centering step computes from a bounding box
    [[[minLon, minLat], [maxLon, maxLat]]]: the arithmetic mean of its
    corners.  It is the midpoint of the geographic box only when the box
    does not cross the antimeridian. *)
Definition boxMidpoint (b : (float * float) * (float * float)) : float * float :=
  let '((minLon, minLat), (maxLon, maxLat)) := b in
  (((minLon + maxLon) / 2)%float, ((minLat + maxLat) / 2)%float).

Definition negated (p : float * float) : float * float :=
  ((- fst p)%float, (- snd p)%float).

(** The options that read a value from the next token. *)
Definition valueOptions : list string :=
  ["--iso3"; "-i"; "--width"; "-w"; "--height"; "--output"; "-o";
   "--outdir"; "-d"].

(** The options that set a dimension of the image. *)
Definition dimensionOptions : list string := ["--width"; "-w"; "--height"].

(** The file written for a feature in batch mode. *)
Definition batchFile {X : Externals} (dir : string) (feat : Feature Geometry)
  : string :=
  path_join dir (template (iso3 (properties feat)) ++ ".svg")%string.


(** The world after one more event. *)
Definition withEvent {X : Externals} (w : World) (e : Event) : World :=
  {| fs := fs w; events := events w ++ [e] |}.

(** The two diagnostics of the loader. *)
Definition datasetNotFound : Event :=
  Stderr ("❌  TopoJSON not found: " ++ inputTopoPath)%string.

Definition emptyTopology : Event :=
  Stderr "❌  No topology objects found in the TopoJSON!".

(** The files written, in order, with their contents. *)
Definition writes (evs : list Event) : list (string * string) :=
  flat_map (fun e => match e with WriteFile p c => [(p, c)] | _ => [] end) evs.

(** The directories created, in order. *)
Definition mkdirs (evs : list Event) : list string :=
  flat_map (fun e => match e with Mkdir d => [d] | _ => [] end) evs.

(** The lines and reports on the error stream, in order. *)
Definition errorStream (evs : list Event) : list Event :=
  filter onErrorStream evs.

(** ** Vocabulary for the option loop *)

(** The tokens the switch has a case for. *)
Definition recognizedOptions : list string :=
  "--help" :: "--all" :: valueOptions.

Definition isOption (a : string) : bool :=
  existsb (String.eqb a) recognizedOptions.

(** The warning printed for a token the switch has no case for. *)
Definition unrecognizedWarning (a : string) : Event :=
  Stderr ("⚠️  Unrecognized option: " ++ a)%string.

(** The character is a decimal digit. *)
Definition isDigit (c : ascii) : bool :=
  match digit_of c with Some _ => true | None => false end.

(** The text holds no comma. *)
Fixpoint commaFree (s : string) : bool :=
  match s with
  | EmptyString => true
  | String c r => negb (Ascii.eqb c ","%char) && commaFree r
  end.

(** The warnings are for tokens of the argument list that the switch has
    no case for. *)
Definition warningsFor {X : Externals} (tokens : list string) (w0 w : World)
           (tail : list Event) : Prop :=
  fs w = fs w0
  /\ exists warned,
      events w = events w0 ++ map unrecognizedWarning warned ++ tail
      /\ incl warned tokens
      /\ Forall (fun a => isOption a = false) warned.

(** What holds of the option variables and of the environment while the
    arguments [tokens] are read, starting in the environment [w0]. *)
Definition whileParsing {X : Externals} (tokens : list string) (w0 : World)
           (st : Args) (w : World) : Prop :=
  warningsFor tokens w0 w []
  /\ truthy_num (width st) = true
  /\ truthy_num (height st) = true
  /\ iso3List st <> [].

(** What holds of the environment when the run ends on [--help]. *)
Definition afterHelp {X : Externals} (tokens : list string) (w0 w : World)
  : Prop :=
  In "--help" tokens /\ warningsFor tokens w0 w [Stdout usage].

(** The text is made of decimal digits only. *)
Fixpoint allDigits (s : string) : bool :=
  match s with
  | EmptyString => true
  | String c r => isDigit c && allDigits r
  end.

(** The markup the single-country script renders for a code: centered on
    the first feature with the code when there is one. *)
Definition legacyMarkup {X : Externals} (g : CreateGlobe.Globals) (c : prim)
  : string :=
  match CreateGlobe.target g c with
  | Some d =>
      outerHTML
        (CreateGlobe.renderTree g
           (set_rotate (negated (geoCentroid d)) (CreateGlobe.baseProjection g)) c)
  | None => outerHTML (CreateGlobe.renderTree g (CreateGlobe.baseProjection g) c)
  end.


(** ** A file system with a quota

    The environment of [Demo] on a disk that holds two files at most: a
    write that would add a third one throws. *)

Module DemoQuota.

Definition write (m : Demo.MemFS) (p content : string) : option Demo.MemFS :=
  if Nat.leb 2 (length (Demo.files m))
     && negb (existsb (fun f => String.eqb p (fst f)) (Demo.files m))
  then None
  else Demo.mem_write m p content.

Definition externals : Externals := {|
  Geometry := Demo.Box;
  FS := Demo.MemFS;
  existsSync := Demo.mem_exists;
  readFileSync := Demo.mem_read;
  mkdirSync_recursive := Demo.mem_mkdir;
  writeFileSync := write;
  path_join := Demo.join;
  JSON_parse := Demo.parse;
  toUpperCase := Demo.upper;
  Number_toString := Demo.number_text;
  topojson_feature := Demo.decode;
  geoPath := Demo.path_data;
  geoBounds := Demo.bounds;
  geoCentroid := Demo.centroid;
  outerHTML := Demo.serialize
|}.

Definition boot (m : Demo.MemFS) : World := @mkWorld externals m [].

Definition globals (st : Args) : Globals :=
  @mkGlobals externals st Demo.features.

End DemoQuota.

(** The value options, grouped by the variable they set. *)
Definition optionGroups : list (list string) :=
  [["--iso3"; "-i"]; ["--width"; "-w"]; ["--height"];
   ["--output"; "-o"]; ["--outdir"; "-d"]].

(** The value makes the option assign its variable: a number other than
    NaN and zero for a dimension, a non-empty text otherwise. *)
Definition effectiveValue (o value : string) : bool :=
  if existsb (String.eqb o) dimensionOptions
  then truthy_num (parseInt (Some value))
  else truthy_str value.

(** ** Boxes across the antimeridian *)

(** Midpoint of the geographic box [[[west, south], [east, north]]].  A
    box with [west > east] crosses the antimeridian: it spans the
    longitudes from [west] up to [east + 360]. *)
Definition geographicMidpoint (b : (float * float) * (float * float))
  : float * float :=
  let '((west, south), (east, north)) := b in
  let lon :=
    if PrimFloat.ltb east west then
      let m := ((west + east + 360) / 2)%float in
      if PrimFloat.ltb 180 m then (m - 360)%float else m
    else ((west + east) / 2)%float in
  (lon, ((south + north) / 2)%float).

(** A dataset with a country that lies across the antimeridian. *)
Module Pacific.

Definition FJI : Feature Demo.Box :=
  mkFeature (mkProperties (PStr "FJI") (PNum 0%float))
            ((177%float, (-19)%float), ((-179)%float, (-16)%float)).

Definition features : list (Feature Demo.Box) := [Demo.ETH; FJI].

Definition globals (st : Args) : Globals :=
  @mkGlobals Demo.externals st features.

End Pacific.

(** ** The tokens the option loop dispatches *)

Definition isValueOption (a : string) : bool :=
  existsb (String.eqb a) valueOptions.

(** The tokens on which the switch is evaluated, in order: a value option
    takes the token after it out of the list, and nothing is dispatched
    after [--help]. *)
Fixpoint dispatchedTokens (argv : list string) : list string :=
  match argv with
  | [] => []
  | a :: rest =>
      if String.eqb a "--help" then [a]
      else if isValueOption a then
        a :: match rest with
             | [] => []
             | _ :: rest2 => dispatchedTokens rest2
             end
      else a :: dispatchedTokens rest
  end.

Definition helpDispatched (argv : list string) : bool :=
  existsb (String.eqb "--help") (dispatchedTokens argv).

(** One warning for each dispatched token the switch has no case for, in
    the order of the tokens. *)
Definition expectedWarnings (argv : list string) : list Event :=
  map unrecognizedWarning
      (filter (fun a => negb (isOption a)) (dispatchedTokens argv)).

(** ** Events of a batch run *)

(** The write and the report of each feature of a list, in order. *)
Definition featureEvents {X : Externals} (g : Globals) (dir : string)
           (l : list (Feature Geometry)) : list Event :=
  flat_map
    (fun feat =>
       [WriteFile (batchFile dir feat)
                  (outerHTML (renderTree g [iso3 (properties feat)]));
        Stdout ("✅  Written: " ++ batchFile dir feat)%string])
    l.

(** ** Repeated options *)

(** The tokens are complete options: every value option among the
    dispatched ones has its value after it. *)
Fixpoint aligned (l : list string) : bool :=
  match l with
  | [] => true
  | a :: rest =>
      if isValueOption a then
        match rest with
        | [] => false
        | _ :: rest2 => aligned rest2
        end
      else aligned rest
  end.

(** Two states of the option variables agree on every variable but the
    one the options of [group] set. *)
Definition sameExcept (group : list string) (st1 st2 : Args) : Prop :=
  (group = ["--iso3"; "-i"] \/ iso3List st1 = iso3List st2)
  /\ (group = ["--width"; "-w"] \/ width st1 = width st2)
  /\ (group = ["--height"] \/ height st1 = height st2)
  /\ (group = ["--output"; "-o"] \/ output st1 = output st2)
  /\ (group = ["--outdir"; "-d"] \/ outdir st1 = outdir st2)
  /\ all st1 = all st2.

(** * Results *)

(** ** Values and lists *)

Lemma sameValueZero_refl (v : prim) : sameValueZero v v = true.
Proof.
  destruct v as [ | | b | x | s]; cbn; auto.
  - now destruct b.
  - unfold PrimFloat.is_nan. now destruct (PrimFloat.eqb x x).
  - apply String.eqb_refl.
Qed.

Lemma includes_singleton_self (v : prim) : includes [v] v = true.
Proof. cbn. now rewrite sameValueZero_refl. Qed.

Lemma includes_strings (codes : list string) (c : string) :
  includes (map PStr codes) (PStr c) = true <-> In c codes.
Proof.
  unfold includes. rewrite existsb_exists. split.
  - intros (a & Ha & Heq). apply in_map_iff in Ha as (s & <- & Hs).
    cbn in Heq. apply String.eqb_eq in Heq. now subst.
  - intros Hin. exists (PStr c). split.
    + now apply in_map.
    + apply sameValueZero_refl.
Qed.

Lemma or_num_nan (a b : float) :
  PrimFloat.is_nan a = true -> or_num a b = b.
Proof. intros H. unfold or_num, truthy_num. now rewrite H. Qed.

Lemma filter_map_all {A B} (p : B -> bool) (f : A -> B) (l : list A) :
  (forall x, p (f x) = true) -> filter p (map f l) = map f l.
Proof.
  intros Hp. induction l as [ | x l IH]; cbn; [reflexivity | ].
  now rewrite Hp, IH.
Qed.

Lemma Forall2_map_right {A B} (R : A -> B -> Prop) (f : A -> B) (l : list A) :
  (forall x, R x (f x)) -> Forall2 R l (map f l).
Proof. intros HR. induction l; cbn; constructor; auto. Qed.

Lemma highlight_is_not_neutral : highlightColor <> neutralColor.
Proof. discriminate. Qed.

(** ** The rendered tree *)

Section Tree.
Context {X : Externals}.

Lemma fold_left_appendChild {A} (f : A -> Node) (l : list A) t a c :
  fold_left (fun svg d => appendChild (f d) svg) l (Elem t a c)
  = Elem t a (c ++ map f l).
Proof.
  revert c. induction l as [ | d l IH]; intros c; cbn.
  - now rewrite app_nil_r.
  - rewrite IH, <- app_assoc. reflexivity.
Qed.

Lemma svgWithOcean_shape (w h : float) (p : Projection) :
  exists a o,
    svgWithOcean w h p = Elem "svg" a [o]
    /\ (String.eqb (tagName o) "path" && hasClass "country" o) = false.
Proof.
  unfold svgWithOcean. destruct (geoPath p Sphere);
    do 2 eexists; (split; [reflexivity | reflexivity]).
Qed.

Lemma graticulePath_not_country (p : Projection) :
  (String.eqb (tagName (graticulePath p)) "path"
   && hasClass "country" (graticulePath p)) = false.
Proof.
  unfold graticulePath. now destruct (geoPath p (Graticule 30 30)).
Qed.

(** The elements [path.country] of a tree made of an ocean path, one
    path per datum and a graticule path are the paths of the data. *)
Lemma selectAll_country_paths {A} (f : A -> Node) (l : list A) a o gr :
  (String.eqb (tagName o) "path" && hasClass "country" o) = false ->
  (String.eqb (tagName gr) "path" && hasClass "country" gr) = false ->
  (forall d, (String.eqb (tagName (f d)) "path" && hasClass "country" (f d)) = true) ->
  selectAll "path" "country" (Elem "svg" a ([o] ++ map f l ++ [gr])) = map f l.
Proof.
  intros Ho Hgr Hf. unfold selectAll. cbn [childNodes].
  rewrite !filter_app, (filter_map_all _ f l Hf). cbn [filter].
  rewrite Ho, Hgr. cbn. now rewrite app_nil_r.
Qed.

Lemma countryPath_is_country (p : Projection) (h : list prim) d :
  (String.eqb (tagName (countryPath p h d)) "path"
   && hasClass "country" (countryPath p h d)) = true.
Proof.
  unfold countryPath. now destruct (geoPath p (FeatureObject d)).
Qed.

Lemma countryPath_attributes (p : Projection) (h : list prim) d :
  let color := if includes h (iso3 (properties d))
               then highlightColor else neutralColor in
  getAttribute "fill" (countryPath p h d) = Some color
  /\ getAttribute "stroke" (countryPath p h d) = Some color
  /\ getAttribute "stroke-width" (countryPath p h d)
     = Some (Number_toString 0.5%float)
  /\ getAttribute "d" (countryPath p h d) = geoPath p (FeatureObject d).
Proof.
  unfold countryPath. destruct (geoPath p (FeatureObject d)); cbn; auto.
Qed.

Lemma renderTree_country_paths (g : Globals) (h : list prim) :
  selectAll "path" "country" (renderTree g h)
  = map (countryPath (centeredProjection g h) h) (countries g).
Proof.
  unfold renderTree.
  destruct (svgWithOcean_shape (width (args g)) (height (args g))
              (centeredProjection g h)) as (a & o & -> & Ho).
  rewrite fold_left_appendChild. cbn [appendChild].
  rewrite <- app_assoc.
  apply selectAll_country_paths; auto.
  - apply graticulePath_not_country.
  - apply countryPath_is_country.
Qed.

Lemma legacy_countryPath_is_country (p : Projection) (c : prim) d :
  (String.eqb (tagName (CreateGlobe.countryPath p c d)) "path"
   && hasClass "country" (CreateGlobe.countryPath p c d)) = true.
Proof.
  unfold CreateGlobe.countryPath. now destruct (geoPath p (FeatureObject d)).
Qed.

Lemma legacy_countryPath_attributes (p : Projection) (c : prim) d :
  let color := if strictEq (iso3 (properties d)) c
               then highlightColor else neutralColor in
  getAttribute "fill" (CreateGlobe.countryPath p c d) = Some color
  /\ getAttribute "stroke" (CreateGlobe.countryPath p c d) = Some color
  /\ getAttribute "stroke-width" (CreateGlobe.countryPath p c d)
     = Some (Number_toString 0.5%float).
Proof.
  unfold CreateGlobe.countryPath.
  destruct (geoPath p (FeatureObject d)); cbn; auto.
Qed.

Lemma legacy_renderTree_country_paths (g : CreateGlobe.Globals) p (c : prim) :
  selectAll "path" "country" (CreateGlobe.renderTree g p c)
  = map (CreateGlobe.countryPath p c) (CreateGlobe.countries g).
Proof.
  unfold CreateGlobe.renderTree.
  destruct (svgWithOcean_shape (CreateGlobe.width (CreateGlobe.args g))
              (CreateGlobe.height (CreateGlobe.args g)) p)
    as (a & o & -> & Ho).
  rewrite fold_left_appendChild. cbn [appendChild].
  rewrite <- app_assoc.
  apply selectAll_country_paths; auto.
  - apply graticulePath_not_country.
  - apply legacy_countryPath_is_country.
Qed.

End Tree.

(** ** Colours of the country paths *)

(** C1.  In the image rendered for any feature list, highlight set, width
    and height, the [path.country] elements are the loaded features, one
    each and in order; the path of a feature has the highlight colour as
    fill and stroke exactly when its code is in the highlight set, and the
    neutral gray as fill and stroke otherwise; the stroke width is 0.5 in
    all cases.  For a highlight set of strings, membership is list
    membership.  The single-country script does the same for the set that
    holds its one code. *)
Theorem country_paths_colored {X : Externals}
        (g : Globals) (h : list prim)
        (lg : CreateGlobe.Globals) (p : Projection) (c : prim) :
  Forall2
    (fun d el =>
       let member := includes h (iso3 (properties d)) in
       (member = true -> paintedAs highlightColor el)
       /\ (member = false -> paintedAs neutralColor el)
       /\ (getAttribute "fill" el = Some highlightColor <-> member = true)
       /\ (forall codes code,
              h = map PStr codes -> iso3 (properties d) = PStr code ->
              (paintedAs highlightColor el <-> In code codes)))
    (countries g) (selectAll "path" "country" (renderTree g h))
  /\ (forall w, generateSvg g h w = (Ret (outerHTML (renderTree g h)), w))
  /\ Forall2
       (fun d el =>
          let member := strictEq (iso3 (properties d)) c in
          (member = true -> paintedAs highlightColor el)
          /\ (member = false -> paintedAs neutralColor el)
          /\ (getAttribute "fill" el = Some highlightColor <-> member = true))
       (CreateGlobe.countries lg)
       (selectAll "path" "country" (CreateGlobe.renderTree lg p c)).
Proof.
  split; [ | split].
  - rewrite renderTree_country_paths. apply Forall2_map_right. intros d.
    pose proof (countryPath_attributes (centeredProjection g h) h d)
      as (Hfill & Hstroke & Hwidth & _).
    cbv zeta in *. unfold paintedAs.
    destruct (includes h (iso3 (properties d))) eqn:Hin.
    + split; [auto | split; [discriminate | split; [now split | ]]].
      intros codes code -> Hcode. rewrite Hcode in Hin.
      apply includes_strings in Hin. now split.
    + split; [discriminate | split; [auto | split]].
      * split; [ | discriminate].
        intros Hf. rewrite Hfill in Hf. discriminate.
      * intros codes code -> Hcode. rewrite Hcode in Hin. split.
        -- intros (Hf & _). rewrite Hfill in Hf. discriminate.
        -- intros Hcodes. apply includes_strings in Hcodes. congruence.
  - intros w. reflexivity.
  - rewrite legacy_renderTree_country_paths. apply Forall2_map_right. intros d.
    pose proof (legacy_countryPath_attributes p c d)
      as (Hfill & Hstroke & Hwidth).
    cbv zeta in *. unfold paintedAs.
    destruct (strictEq (iso3 (properties d)) c).
    + split; [auto | split; [discriminate | now split]].
    + split; [discriminate | split; [auto | split; [ | discriminate]]].
      intros Hf. rewrite Hfill in Hf. discriminate.
Qed.

(** ** Centering *)

Section Centering.
Context {X : Externals}.

Lemma selected_spec (g : Globals) (h : list prim) d :
  In d (selected g h)
  <-> In d (countries g) /\ includes h (iso3 (properties d)) = true.
Proof. unfold selected. apply filter_In. Qed.

Lemma someCodeMatches_selected (g : Globals) (h : list prim) :
  someCodeMatches (countries g) h <-> selected g h <> [].
Proof.
  split.
  - intros (code & d & Hcode & Hd & Heq) Hnil.
    assert (Hin : In d (selected g h)).
    { apply selected_spec. split; [assumption | ].
      unfold includes. apply existsb_exists. now exists code. }
    rewrite Hnil in Hin. contradiction.
  - destruct (selected g h) as [ | d rest] eqn:Hsel; [congruence | intros _].
    assert (Hin : In d (selected g h)) by (rewrite Hsel; now left).
    apply selected_spec in Hin as (Hd & Hinc).
    unfold includes in Hinc. apply existsb_exists in Hinc as (code & Hcode & Heq).
    now exists code, d.
Qed.

Lemma centeredProjection_rotate (g : Globals) (h : list prim) :
  rotate (centeredProjection g h)
  = match selected g h with
    | [] => None
    | _ :: _ => Some (negated (boxMidpoint (geoBounds (selected g h))))
    end.
Proof.
  unfold centeredProjection.
  destruct (selected g h) as [ | d rest] eqn:Hsel; [reflexivity | ].
  cbn [length Nat.eqb negb].
  destruct (geoBounds (d :: rest)) as [[minLon minLat] [maxLon maxLat]].
  reflexivity.
Qed.

(** The single-country script centers on the centroid of the first
    feature with the code, and warns when there is none. *)
Lemma legacy_centerProjection (g : CreateGlobe.Globals) (c : prim) (w : World) :
  CreateGlobe.centerProjection g c w
  = match CreateGlobe.target g c with
    | Some target =>
        (Ret (set_rotate (negated (geoCentroid target))
                         (CreateGlobe.baseProjection g)), w)
    | None =>
        (Ret (CreateGlobe.baseProjection g),
         withEvent w (Stderr ("⚠️  iso3 code not found: " ++ template c)%string))
    end.
Proof.
  unfold CreateGlobe.centerProjection.
  destruct (CreateGlobe.target g c) as [target | ]; [ | reflexivity].
  now destruct (geoCentroid target).
Qed.

End Centering.

(** The centering step as the code computes it: if some highlighted code
    is the code of a loaded feature, the projection is rotated by the
    negated arithmetic mean of the corners of the bounding box of the
    matched features, which are the loaded features whose code is in the
    highlight set; if none is, no rotation is set and the rotation read
    back is the identity (0, 0). *)
Lemma rotation_centers_on_matches {X : Externals}
        (g : Globals) (h : list prim) :
  (someCodeMatches (countries g) h ->
   rotation (centeredProjection g h)
   = negated (boxMidpoint (geoBounds (selected g h)))
   /\ forall d, In d (selected g h)
               <-> In d (countries g) /\ includes h (iso3 (properties d)) = true)
  /\ (~ someCodeMatches (countries g) h ->
      rotate (centeredProjection g h) = None
      /\ rotation (centeredProjection g h) = (0%float, 0%float)).
Proof.
  unfold rotation. rewrite centeredProjection_rotate. split.
  - intros Hm. apply someCodeMatches_selected in Hm.
    split; [ | apply selected_spec].
    destruct (selected g h); [congruence | reflexivity].
  - intros Hm. rewrite someCodeMatches_selected in Hm.
    destruct (selected g h); [now split | ].
    exfalso. apply Hm. discriminate.
Qed.

(** C2.  The claim asks for the midpoint of the geographic bounding box;
    the code takes the arithmetic mean of the corners [geoBounds]
    returns.  For a country across the antimeridian, whose box runs from
    177 east to 179 west, the mean of the longitudes is -1 and the
    projection is rotated by (1, 17.5): the image is centered on the far
    side of the globe, 180 degrees from the midpoint (179, -17.5) of the
    box. *)
Theorem antimeridian_box_is_centered_on_far_side :
  let g := Pacific.globals initialArgs in
  let highlightIso3 := [PStr "FJI"] in
  selected g highlightIso3 = [Pacific.FJI]
  /\ geoBounds (selected g highlightIso3)
     = ((177%float, (-19)%float), ((-179)%float, (-16)%float))
  /\ geographicMidpoint (geoBounds (selected g highlightIso3))
     = (179%float, (-17.5)%float)
  /\ rotation (centeredProjection g highlightIso3) = (1%float, 17.5%float)
  /\ negated (geographicMidpoint (geoBounds (selected g highlightIso3)))
     = ((-179)%float, 17.5%float).
Proof. repeat split. Qed.

(** C10.  Every render of batch mode highlights the code of a main
    feature; that feature is among the matched ones, so the rotation is
    set: the unrotated branch is not taken. *)
Theorem batch_render_is_rotated {X : Externals}
        (g : Globals) (feat : Feature Geometry) :
  In feat (mainCountries (countries g)) ->
  let highlightIso3 := [iso3 (properties feat)] in
  In feat (selected g highlightIso3)
  /\ someCodeMatches (countries g) highlightIso3
  /\ rotate (centeredProjection g highlightIso3)
     = Some (negated (boxMidpoint (geoBounds (selected g highlightIso3))))
  /\ forall dir w,
       batchBody g dir feat w
       = (fs_writeFileSync (batchFile dir feat)
                           (outerHTML (renderTree g highlightIso3)) ;;;
          console_log ("✅  Written: " ++ batchFile dir feat)%string) w.
Proof.
  intros Hmain highlightIso3.
  assert (Hsel : In feat (selected g highlightIso3)).
  { apply selected_spec. split.
    - unfold mainCountries in Hmain. now apply filter_In in Hmain.
    - apply includes_singleton_self. }
  split; [exact Hsel | split; [ | split]].
  - apply someCodeMatches_selected. intros Hnil. rewrite Hnil in Hsel.
    contradiction.
  - rewrite centeredProjection_rotate.
    destruct (selected g highlightIso3); [contradiction | reflexivity].
  - reflexivity.
Qed.

Lemma batch_render_is_rotated_witness :
  In Demo.ETH (mainCountries (X := Demo.externals) Demo.features)
  /\ rotate (centeredProjection (Demo.globals initialArgs) [PStr "ETH"])
     = Some ((-40.5)%float, (-9)%float).
Proof.
  assert (H : In Demo.ETH (mainCountries (countries (Demo.globals initialArgs)))).
  { cbn. now left. }
  split; [exact H | ].
  exact (proj1 (proj2 (proj2
           (@batch_render_is_rotated Demo.externals
              (Demo.globals initialArgs) Demo.ETH H)))).
Defined.

(** ** Purity of the renderer *)

(** C8.  The markup depends on the loaded feature list, the highlight set,
    the width and the height only: two renders that agree on them return
    the same string, whatever the other option variables and the state of
    the environment are, and neither render does anything to the
    environment. *)
Theorem generateSvg_deterministic {X : Externals}
        (g1 g2 : Globals) (h : list prim) (w1 w2 : World) :
  countries g1 = countries g2 ->
  width (args g1) = width (args g2) ->
  height (args g1) = height (args g2) ->
  exists markup : string,
    generateSvg g1 h w1 = (Ret markup, w1)
    /\ generateSvg g2 h w2 = (Ret markup, w2).
Proof.
  intros Hc Hw Hh. exists (outerHTML (renderTree g1 h)).
  split; [reflexivity | ].
  unfold generateSvg, ret, renderTree, centeredProjection, selected.
  now rewrite Hc, Hw, Hh.
Qed.

Lemma generateSvg_deterministic_witness :
  exists markup : string,
    generateSvg (Demo.globals initialArgs) [PStr "ETH"] (Demo.boot Demo.disk)
    = (Ret markup, Demo.boot Demo.disk)
    /\ generateSvg (Demo.globals Demo.batchArgs) [PStr "ETH"]
                   (Demo.boot Demo.disk_garbled)
       = (Ret markup, Demo.boot Demo.disk_garbled).
Proof.
  apply (@generateSvg_deterministic Demo.externals
           (Demo.globals initialArgs) (Demo.globals Demo.batchArgs));
    reflexivity.
Defined.

(** ** Batch mode *)

Section Batch.
Context {X : Externals}.
Hypothesis writes_succeed : forall m p c, writeFileSync m p c <> None.



End Batch.




(** ** Unmatched highlight codes *)

(** C4.  The renderer of the multi-country script never prints: a render
    leaves the environment as it found it, so a highlight code that
    matches no loaded feature produces no warning.  On the dataset
    [ETH, USA] the run [--iso3 ZZZ] matches nothing, writes [ZZZ.svg] and
    leaves the error stream empty, where the single-country script prints
    its warning. *)
Theorem unmatched_code_prints_no_warning :
  (forall (X : Externals) (g : Globals) (h : list prim) (w : World),
      snd (generateSvg g h w) = w)
  /\ selected (Demo.globals initialArgs) [PStr "ZZZ"] = []
  /\ (let w' := snd (script ["--iso3"; "ZZZ"] (Demo.boot Demo.disk)) in
      errorStream (events w') = []
      /\ map fst (writes (events w')) = ["ZZZ.svg"])
  /\ (let w' := snd (CreateGlobe.script ["--iso3"; "ZZZ"] (Demo.boot Demo.disk)) in
      errorStream (events w') = [Stderr "⚠️  iso3 code not found: ZZZ"]
      /\ map fst (writes (events w')) = ["ZZZ.svg"]).
Proof.
  split; [ | split; [ | split]].
  - intros X g h w. reflexivity.
  - reflexivity.
  - vm_compute. split; reflexivity.
  - vm_compute. split; reflexivity.
Qed.

(** ** Loading the dataset *)

Section Loader.
Context {X : Externals}.

Lemma loadCountries_eq (w : World) :
  loadCountries w
  = if existsSync (fs w) inputTopoPath then
      match readFileSync (fs w) inputTopoPath with
      | None => (Throw ReadError, w)
      | Some topoRaw =>
          match JSON_parse topoRaw with
          | None => (Throw SyntaxError, w)
          | Some worldData =>
              if nullish (Some worldData) then (Throw TypeError, w)
              else if Nat.eqb (length (topoKeys (member worldData "objects"))) 0
              then (Exit 1%Z, withEvent w emptyTopology)
              else
                match member worldData "objects" with
                | None => (Throw TypeError, w)
                | Some objs =>
                    if nullish (Some objs) then (Throw TypeError, w)
                    else
                      decodeFeatures worldData objs
                        (topoKey (member objs "countries")
                                 (topoKeys (Some objs))) w
                end
          end
      end
    else (Exit 1%Z, withEvent w datasetNotFound).
Proof.
  unfold loadCountries, bind, fs_existsSync, fs_readFileSync.
  destruct (existsSync (fs w) inputTopoPath); cbn [negb]; [ | reflexivity].
  destruct (readFileSync (fs w) inputTopoPath) as [topoRaw | ]; [ | reflexivity].
  destruct (JSON_parse topoRaw) as [worldData | ]; [ | reflexivity].
  destruct (nullish (Some worldData)); [reflexivity | ].
  destruct (Nat.eqb _ 0); [reflexivity | ].
  destruct (member worldData "objects") as [objs | ]; [ | reflexivity].
  now destruct (nullish (Some objs)).
Qed.






End Loader.






(** ** Command-line options *)

Section Options.
Context {X : Externals}.

Lemma parseInt_undefined_is_nan : PrimFloat.is_nan (parseInt None) = true.
Proof. reflexivity. Qed.

Lemma argvLoop_consumed (a t : string) (rest : list string) (st st' : Args)
      (w : World) :
  switchCase a (Some t) st w = (Ret (true, st'), w) ->
  argvLoop (a :: t :: rest) st w = argvLoop rest st' w.
Proof.
  intros Hs. cbn [argvLoop hd_error]. unfold bind at 1. now rewrite Hs.
Qed.

Lemma argvLoop_consumed_last (a : string) (st st' : Args) (w : World) :
  switchCase a None st w = (Ret (true, st'), w) ->
  argvLoop [a] st w = (Ret st', w).
Proof.
  intros Hs. cbn [argvLoop hd_error]. unfold bind at 1. now rewrite Hs.
Qed.

Lemma dimension_option_unparsable (a : string) (next : option string)
      (st : Args) (w : World) :
  In a dimensionOptions ->
  PrimFloat.is_nan (parseInt next) = true ->
  switchCase a next st w = (Ret (true, st), w).
Proof.
  intros Ha Hnan. destruct st as [l wd ht o od al].
  destruct Ha as [<- | [<- | [<- | []]]]; cbn; unfold ret;
    now rewrite (or_num_nan _ _ Hnan).
Qed.

(** In a goal about a concrete option token: a membership hypothesis
    that names other tokens is absurd; otherwise the variable holds what
    [||] selects for a non-empty value. *)
Ltac value_case t :=
  match goal with
  | |- In _ _ -> _ =>
      let Hin := fresh "Hin" in
      intros Hin; cbn in Hin;
      first [ exfalso; repeat (destruct Hin as [Hin | Hin]; try discriminate);
              exact Hin
            | try (let Ht := fresh "Ht" in
                   intros Ht; destruct t; [congruence | ]);
              reflexivity ]
  | |- _ = _ -> _ =>
      let Heq := fresh "Heq" in
      intros Heq; first [ discriminate Heq | reflexivity ]
  end.

Lemma value_option_step (o t : string) (st : Args) (w : World) :
  In o valueOptions ->
  exists st',
    switchCase o (Some t) st w = (Ret (true, st'), w)
    /\ all st' = all st
    /\ (In o ["--iso3"; "-i"] -> t <> "" ->
        iso3List st' = map (fun s => toUpperCase (trim s)) (split_comma t))
    /\ (In o ["--width"; "-w"] ->
        width st' = or_num (parseInt (Some t)) (width st))
    /\ (o = "--height" ->
        height st' = or_num (parseInt (Some t)) (height st))
    /\ (In o ["--output"; "-o"] -> t <> "" -> output st' = Some t)
    /\ (In o ["--outdir"; "-d"] -> t <> "" -> outdir st' = Some t).
Proof.
  intros Ho.
  repeat (destruct Ho as [<- | Ho];
          [eexists; split; [reflexivity | ]; split; [reflexivity | ];
           repeat split; value_case t | ]).
  destruct Ho.
Qed.

End Options.

(** A width option with an unparsable value after one with a valid value:
    the width stays at 500, not at the default 800. *)
Lemma unparsable_width_keeps_earlier_width :
  PrimFloat.is_nan (parseInt (Some "abc")) = true
  /\ exists st,
       resolveArgs ["--width"; "500"; "--width"; "abc"] (Demo.boot Demo.disk)
       = (Ret st, Demo.boot Demo.disk)
       /\ width st = 500%float
       /\ PrimFloat.eqb (width st) 800%float = false.
Proof.
  split; [reflexivity | ]. eexists. split; [reflexivity | ]. split; reflexivity.
Qed.

(** C7, amended.  A width or height option whose value does not parse as
    an integer leaves that dimension, and every other option variable, at
    the value it had before the option, which is the default 800 when no
    earlier option set the dimension; nothing is printed and parsing
    continues with the token after the value. *)
Theorem unparsable_dimension_keeps_current_value {X : Externals}
        (a v : string) (rest : list string) (st : Args) (w : World) :
  In a dimensionOptions ->
  PrimFloat.is_nan (parseInt (Some v)) = true ->
  switchCase a (Some v) st w = (Ret (true, st), w)
  /\ argvLoop (a :: v :: rest) st w = argvLoop rest st w
  /\ argvLoop [a] st w = (Ret st, w)
  /\ (exists st',
         argvLoop [a; v] initialArgs w = (Ret st', w)
         /\ width st' = 800%float /\ height st' = 800%float).
Proof.
  intros Ha Hnan.
  pose proof (dimension_option_unparsable a (Some v) st w Ha Hnan) as Hstep.
  split; [exact Hstep | split; [ | split]].
  - now apply argvLoop_consumed.
  - apply argvLoop_consumed_last.
    apply dimension_option_unparsable; [exact Ha | reflexivity].
  - exists initialArgs. split; [ | split; reflexivity].
    rewrite (argvLoop_consumed a v [] initialArgs initialArgs w); [reflexivity | ].
    now apply dimension_option_unparsable.
Qed.

Lemma unparsable_dimension_keeps_current_value_witness :
  argvLoop ["--height"; "tall"; "--all"] initialArgs (Demo.boot Demo.disk)
  = argvLoop ["--all"] initialArgs (Demo.boot Demo.disk).
Proof.
  assert (Ha : In "--height" dimensionOptions) by (cbn; auto).
  exact (proj1 (proj2
           (@unparsable_dimension_keeps_current_value Demo.externals
              "--height" "tall" ["--all"] initialArgs (Demo.boot Demo.disk)
              Ha eq_refl))).
Defined.

(** C9.  When the loop reaches a value-taking option that is followed by a
    token, the switch is evaluated on the option with that token as its
    value and the loop goes on with the token after it: the following
    token is never dispatched, whatever it is, so it cannot end the run as
    [--help], set batch mode as [--all] or be reported as unrecognized.
    The arguments [--width --all] leave the width at 800 and batch mode
    off. *)
Theorem value_option_consumes_next_token {X : Externals}
        (o t : string) (rest : list string) (st : Args) (w : World) :
  In o valueOptions ->
  (exists st',
      switchCase o (Some t) st w = (Ret (true, st'), w)
      /\ argvLoop (o :: t :: rest) st w = argvLoop rest st' w
      /\ all st' = all st
      /\ (In o ["--iso3"; "-i"] -> t <> "" ->
          iso3List st' = map (fun s => toUpperCase (trim s)) (split_comma t))
      /\ (In o ["--width"; "-w"] ->
          width st' = or_num (parseInt (Some t)) (width st))
      /\ (o = "--height" ->
          height st' = or_num (parseInt (Some t)) (height st))
      /\ (In o ["--output"; "-o"] -> t <> "" -> output st' = Some t)
      /\ (In o ["--outdir"; "-d"] -> t <> "" -> outdir st' = Some t))
  /\ (exists st',
         resolveArgs ["--width"; "--all"] w = (Ret st', w)
         /\ width st' = 800%float
         /\ all st' = false).
Proof.
  intros Ho. split.
  - destruct (value_option_step o t st w Ho) as (st' & Hstep & Hall & Hrest).
    exists st'. split; [exact Hstep | split; [ | split; [exact Hall | exact Hrest]]].
    now apply argvLoop_consumed.
  - eexists. split; [reflexivity | split; reflexivity].
Qed.

Lemma value_option_consumes_next_token_witness :
  exists st',
    argvLoop ["--output"; "--help"; "--all"] initialArgs (Demo.boot Demo.disk)
    = (Ret st', Demo.boot Demo.disk)
    /\ output st' = Some "--help"
    /\ all st' = true.
Proof.
  assert (Ho : In "--output" valueOptions) by (cbn; auto 10).
  destruct (proj1 (@value_option_consumes_next_token Demo.externals
                     "--output" "--help" ["--all"] initialArgs
                     (Demo.boot Demo.disk) Ho))
    as (st1 & Hstep & Hloop & _).
  injection Hstep as <-.
  eexists. split; [rewrite Hloop; reflexivity | split; reflexivity].
Defined.

(** * Further properties of the scripts *)

(** ** The option loop as a whole *)

Section OptionLoop.
Context {X : Externals}.

Variable tokens : list string.
Variable Inv : Args -> World -> Prop.
Variable AtHelp : World -> Prop.

Hypothesis step :
  forall a next st w,
    In a tokens -> Inv st w ->
    match switchCase a next st w with
    | (Ret (_, st'), w') => Inv st' w'
    | (Exit code, w') => code = 0%Z /\ AtHelp w'
    | (Throw _, _) => False
    end.

(** An invariant of the switch is an invariant of the loop. *)
Lemma argvLoop_invariant_bounded (n : nat) :
  forall rest st w,
    length rest <= n -> incl rest tokens -> Inv st w ->
    match argvLoop rest st w with
    | (Ret st', w') => Inv st' w'
    | (Exit code, w') => code = 0%Z /\ AtHelp w'
    | (Throw _, _) => False
    end.
Proof.
  induction n as [ | n IH]; intros rest st w Hlen Hincl HI.
  - destruct rest; [exact HI | cbn in Hlen; inversion Hlen].
  - destruct rest as [ | a rest1]; [exact HI | ].
    cbn [argvLoop]. unfold bind at 1.
    pose proof (step a (hd_error rest1) st w (Hincl a (or_introl eq_refl)) HI)
      as Hstep.
    destruct (switchCase a (hd_error rest1) st w) as [[[consumed st'] | code | e] w'];
      [ | exact Hstep | exact Hstep].
    assert (Hincl1 : incl rest1 tokens)
      by (intros x Hx; apply Hincl; now right).
    cbn in Hlen. apply le_S_n in Hlen.
    destruct consumed.
    + destruct rest1 as [ | t rest2]; [exact Hstep | ].
      apply IH; [ | | exact Hstep].
      * cbn in Hlen. apply Nat.lt_le_incl. exact Hlen.
      * intros x Hx. apply Hincl1. now right.
    + now apply IH.
Qed.

Lemma argvLoop_invariant (rest : list string) (st : Args) (w : World) :
  incl rest tokens -> Inv st w ->
  match argvLoop rest st w with
  | (Ret st', w') => Inv st' w'
  | (Exit code, w') => code = 0%Z /\ AtHelp w'
  | (Throw _, _) => False
  end.
Proof. apply (argvLoop_invariant_bounded (length rest)). apply le_n. Qed.

End OptionLoop.

Section Parsing.
Context {X : Externals}.

Lemma or_num_truthy (a b : float) :
  truthy_num b = true -> truthy_num (or_num a b) = true.
Proof. intros Hb. unfold or_num. now destruct (truthy_num a) eqn:Ha. Qed.

Lemma split_comma_nonempty (s : string) : split_comma s <> [].
Proof.
  destruct s as [ | c r]; cbn; [discriminate | ].
  destruct (Ascii.eqb c ","%char); [discriminate | ].
  destruct (split_comma r); discriminate.
Qed.

Lemma map_nonempty {A B} (f : A -> B) (l : list A) : l <> [] -> map f l <> [].
Proof. destruct l; [congruence | discriminate]. Qed.

Lemma not_recognized (a : string) :
  String.eqb a "--help" = false ->
  (String.eqb a "--iso3" || String.eqb a "-i") = false ->
  (String.eqb a "--width" || String.eqb a "-w") = false ->
  String.eqb a "--height" = false ->
  (String.eqb a "--output" || String.eqb a "-o") = false ->
  (String.eqb a "--outdir" || String.eqb a "-d") = false ->
  String.eqb a "--all" = false ->
  isOption a = false.
Proof.
  intros H1 H2 H3 H4 H5 H6 H7.
  apply orb_false_elim in H2 as (H2 & H2').
  apply orb_false_elim in H3 as (H3 & H3').
  apply orb_false_elim in H5 as (H5 & H5').
  apply orb_false_elim in H6 as (H6 & H6').
  unfold isOption, recognizedOptions, valueOptions. cbn [existsb].
  now rewrite H1, H2, H2', H3, H3', H4, H5, H5', H6, H6', H7.
Qed.

Lemma switchCase_unrecognized (a : string) (next : option string) (st : Args)
      (w : World) :
  isOption a = false ->
  switchCase a next st w = (Ret (false, st), withEvent w (unrecognizedWarning a)).
Proof.
  unfold isOption, recognizedOptions, valueOptions. cbn [existsb].
  intros H. repeat (apply orb_false_elim in H as (? & H)).
  unfold switchCase.
  repeat match goal with
         | E : String.eqb a ?s = false |- _ => rewrite E; clear E
         end.
  reflexivity.
Qed.

Lemma switchCase_keeps_invariant (tokens : list string) (w0 : World)
      (a : string) (next : option string) (st : Args) (w : World) :
  In a tokens ->
  whileParsing tokens w0 st w ->
  match switchCase a next st w with
  | (Ret (_, st'), w') => whileParsing tokens w0 st' w'
  | (Exit code, w') => code = 0%Z /\ afterHelp tokens w0 w'
  | (Throw _, _) => False
  end.
Proof.
  intros Ha ((Hfs & warned & Hev & Hincl & Hno) & Hw & Hh & Hl).
  unfold switchCase.
  destruct (String.eqb a "--help") eqn:E1.
  { apply String.eqb_eq in E1. subst a. cbn. split; [reflexivity | ].
    split; [exact Ha | ]. split; [exact Hfs | ]. exists warned.
    rewrite Hev, app_nil_r, <- app_assoc. auto. }
  destruct (String.eqb a "--iso3" || String.eqb a "-i") eqn:E2.
  { cbn. repeat split; auto.
    - exists warned. auto.
    - apply map_nonempty, split_comma_nonempty. }
  destruct (String.eqb a "--width" || String.eqb a "-w") eqn:E3.
  { cbn. repeat split; auto.
    - exists warned. auto.
    - now apply or_num_truthy. }
  destruct (String.eqb a "--height") eqn:E4.
  { cbn. repeat split; auto.
    - exists warned. auto.
    - now apply or_num_truthy. }
  destruct (String.eqb a "--output" || String.eqb a "-o") eqn:E5.
  { cbn. repeat split; auto. exists warned. auto. }
  destruct (String.eqb a "--outdir" || String.eqb a "-d") eqn:E6.
  { cbn. repeat split; auto. exists warned. auto. }
  destruct (String.eqb a "--all") eqn:E7.
  { cbn. repeat split; auto. exists warned. auto. }
  cbn. repeat split; auto.
  exists (warned ++ [a]). rewrite Hev, !app_nil_r, map_app, <- app_assoc.
  split; [reflexivity | split].
  - intros x Hx. apply in_app_or in Hx as [Hx | [<- | []]]; auto.
  - apply Forall_app. split; [exact Hno | ].
    constructor; [ | constructor]. now apply not_recognized.
Qed.

Lemma whileParsing_start (tokens : list string) (w : World) :
  whileParsing tokens w initialArgs w.
Proof.
  repeat split; try reflexivity; try discriminate.
  exists []. cbn. rewrite app_nil_r. repeat split; auto.
  intros x [].
Qed.

Lemma argvLoop_summary (argv : list string) (w : World) :
  match argvLoop argv initialArgs w with
  | (Ret st, w') => whileParsing argv w st w'
  | (Exit code, w') => code = 0%Z /\ afterHelp argv w w'
  | (Throw _, _) => False
  end.
Proof.
  apply (argvLoop_invariant argv (whileParsing argv w) (afterHelp argv w)).
  - intros a next st w1. apply switchCase_keeps_invariant.
  - apply incl_refl.
  - apply whileParsing_start.
Qed.

End Parsing.

Section ParsingResults.
Context {X : Externals}.

Lemma resolveArgs_eq (argv : list string) (w : World) :
  resolveArgs argv w
  = match argvLoop argv initialArgs w with
    | (Ret st, w') => (Ret (defaultOutput st), w')
    | (Exit code, w') => (Exit code, w')
    | (Throw e, w') => (Throw e, w')
    end.
Proof. reflexivity. Qed.

Lemma defaultOutput_fields (st : Args) :
  iso3List (defaultOutput st) = iso3List st
  /\ width (defaultOutput st) = width st
  /\ height (defaultOutput st) = height st
  /\ outdir (defaultOutput st) = outdir st
  /\ all (defaultOutput st) = all st.
Proof.
  unfold defaultOutput.
  destruct (all st) eqn:Hall, (truthy_ostr (output st)); cbn; auto.
Qed.

Lemma defaultOutput_single (st : Args) :
  all st = false ->
  exists o, output (defaultOutput st) = Some o /\ o <> "".
Proof.
  intros Hall. unfold defaultOutput. rewrite Hall. cbn [negb].
  destruct (output st) as [o | ] eqn:Ho; cbn.
  - destruct o as [ | c o'] eqn:Heq; cbn.
    + eexists. split; [reflexivity | ].
      destruct (join_comma (iso3List st)); discriminate.
    + exists (String c o'). rewrite Ho. split; [reflexivity | discriminate].
  - eexists. split; [reflexivity | ].
    destruct (join_comma (iso3List st)); discriminate.
Qed.

(** Tokens the switch has no case for are skipped with one warning each. *)
Lemma argvLoop_skips_unrecognized (pre rest : list string) :
  Forall (fun a => isOption a = false) pre ->
  forall (st : Args) (w : World),
    argvLoop (pre ++ rest) st w
    = argvLoop rest st
        {| fs := fs w; events := events w ++ map unrecognizedWarning pre |}.
Proof.
  induction 1 as [ | a pre Ha Hpre IH]; intros st w.
  - cbn. rewrite app_nil_r. now destruct w.
  - cbn [app argvLoop]. unfold bind at 1.
    rewrite (switchCase_unrecognized a _ st w Ha).
    rewrite IH. unfold withEvent. cbn [fs events map].
    now rewrite <- app_assoc.
Qed.

End ParsingResults.

Section Dispatch.
Context {X : Externals}.

Lemma switchCase_value_option (a : string) (next : option string) (st : Args)
      (w : World) :
  isValueOption a = true ->
  exists st', switchCase a next st w = (Ret (true, st'), w).
Proof.
  unfold isValueOption. intros H. apply existsb_exists in H as (x & Hx & Heq).
  apply String.eqb_eq in Heq. subst x.
  repeat (destruct Hx as [<- | Hx]; [eexists; reflexivity | ]). destruct Hx.
Qed.

Lemma isOption_split (a : string) :
  isOption a = String.eqb a "--help" || (String.eqb a "--all" || isValueOption a).
Proof. reflexivity. Qed.

Lemma dispatchedTokens_incl (argv : list string) :
  incl (dispatchedTokens argv) argv.
Proof.
  assert (H : forall n argv, length argv <= n -> incl (dispatchedTokens argv) argv).
  { clear argv. induction n as [ | n IH]; intros argv Hlen.
    - destruct argv; [intros x [] | inversion Hlen].
    - destruct argv as [ | a rest]; [intros x [] | ].
      cbn in Hlen. apply le_S_n in Hlen. cbn [dispatchedTokens].
      destruct (String.eqb a "--help").
      + intros x [<- | []]. now left.
      + destruct (isValueOption a).
        * destruct rest as [ | t rest2]; [intros x [<- | []]; now left | ].
          intros x [<- | Hx]; [now left | ].
          right. right. apply (IH rest2); [ | exact Hx].
          cbn in Hlen. now apply Nat.lt_le_incl.
        * intros x [<- | Hx]; [now left | ]. right. now apply (IH rest). }
  apply (H (length argv)). apply le_n.
Qed.

(** The loop, from any state: it ends on a dispatched [--help], and
    prints the expected warnings and nothing else. *)
Lemma argvLoop_dispatch (n : nat) :
  forall (argv : list string) (st : Args) (w : World),
    length argv <= n ->
    if helpDispatched argv
    then argvLoop argv st w
         = (Exit 0%Z,
            {| fs := fs w;
               events := events w ++ expectedWarnings argv ++ [Stdout usage] |})
    else exists st',
        argvLoop argv st w
        = (Ret st',
           {| fs := fs w; events := events w ++ expectedWarnings argv |}).
Proof.
  induction n as [ | n IH]; intros argv st w Hlen.
  - destruct argv; [ | inversion Hlen].
    cbn. exists st. rewrite app_nil_r. now destruct w.
  - destruct argv as [ | a rest].
    { cbn. exists st. rewrite app_nil_r. now destruct w. }
    cbn in Hlen. apply le_S_n in Hlen.
    unfold helpDispatched, expectedWarnings. cbn [dispatchedTokens].
    destruct (String.eqb a "--help") eqn:Ehelp.
    { apply String.eqb_eq in Ehelp. subst a. reflexivity. }
    assert (Ehelp' : String.eqb "--help" a = false)
      by (rewrite String.eqb_sym; exact Ehelp).
    destruct (isValueOption a) eqn:Evalue.
    + destruct (switchCase_value_option a (hd_error rest) st w Evalue)
        as (st1 & Hstep).
      assert (Hloop : argvLoop (a :: rest) st w
                      = match rest with
                        | [] => (Ret st1, w)
                        | _ :: rest2 => argvLoop rest2 st1 w
                        end).
      { cbn [argvLoop]. unfold bind at 1. rewrite Hstep. now destruct rest. }
      rewrite Hloop.
      assert (Hopt : isOption a = true)
        by (rewrite isOption_split, Evalue; now rewrite !orb_true_r).
      cbn [existsb filter map]. rewrite Ehelp', Hopt. cbn [negb orb].
      destruct rest as [ | t rest2].
      * cbn. exists st1. rewrite app_nil_r. now destruct w.
      * apply (IH rest2 st1 w). cbn in Hlen. now apply Nat.lt_le_incl.
    + destruct (isOption a) eqn:Hopt.
      * rewrite isOption_split, Ehelp, Evalue, orb_false_r in Hopt.
        cbn in Hopt. apply String.eqb_eq in Hopt. subst a.
        assert (Hloop : exists st1,
                   argvLoop ("--all" :: rest) st w = argvLoop rest st1 w)
          by (eexists; reflexivity).
        destruct Hloop as (st1 & ->).
        cbn [existsb filter map isOption negb orb].
        apply (IH rest st1 w Hlen).
      * assert (Hloop : argvLoop (a :: rest) st w
                        = argvLoop rest st (withEvent w (unrecognizedWarning a))).
        { cbn [argvLoop]. unfold bind at 1.
          now rewrite (switchCase_unrecognized a _ st w Hopt). }
        rewrite Hloop.
        cbn [existsb filter map]. rewrite Ehelp', Hopt. cbn [negb orb map].
        pose proof (IH rest st (withEvent w (unrecognizedWarning a)) Hlen) as Hrest.
        unfold helpDispatched, expectedWarnings in Hrest.
        cbn [withEvent fs events] in Hrest.
        destruct (existsb (String.eqb "--help") (dispatchedTokens rest)).
        -- rewrite Hrest. cbn [app]. now rewrite <- !app_assoc.
        -- destruct Hrest as (st' & Hrest). exists st'. rewrite Hrest.
           cbn [app]. now rewrite <- !app_assoc.
Qed.

End Dispatch.

(** X1.  Reading the arguments never throws and never touches the file
    system.  It ends the process exactly when [--help] is dispatched,
    with status 0 and the usage text as last output; otherwise it
    returns.  Besides the usage text it prints one warning for each
    dispatched token that is not an option, in the order of the tokens,
    and nothing else.  The dispatched tokens are tokens of the argument
    list, so without [--help] among the arguments the run returns. *)
Theorem option_parsing_outcomes {X : Externals}
        (argv : list string) (w : World) :
  (if helpDispatched argv
   then resolveArgs argv w
        = (Exit 0%Z,
           {| fs := fs w;
              events := events w ++ expectedWarnings argv ++ [Stdout usage] |})
   else exists st,
       resolveArgs argv w
       = (Ret st, {| fs := fs w; events := events w ++ expectedWarnings argv |}))
  /\ incl (dispatchedTokens argv) argv
  /\ (helpDispatched argv = true -> In "--help" argv)
  /\ (~ In "--help" argv -> helpDispatched argv = false).
Proof.
  assert (Hhelp : helpDispatched argv = true -> In "--help" argv).
  { unfold helpDispatched. intros H.
    apply existsb_exists in H as (x & Hx & Heq).
    apply String.eqb_eq in Heq. subst x. now apply dispatchedTokens_incl. }
  split; [ | split; [apply dispatchedTokens_incl | split; [exact Hhelp | ]]].
  - rewrite resolveArgs_eq.
    pose proof (argvLoop_dispatch (length argv) argv initialArgs w (le_n _)) as H.
    destruct (helpDispatched argv).
    + now rewrite H.
    + destruct H as (st & ->). now exists (defaultOutput st).
  - intros Hno. destruct (helpDispatched argv); [ | reflexivity].
    exfalso. now apply Hno, Hhelp.
Qed.

(** X2.  Whatever the arguments, the resolved width and height are
    numbers other than NaN and zero, the list of codes is not empty, and
    outside batch mode the output path is a non-empty string. *)
Theorem resolved_options_are_usable {X : Externals}
        (argv : list string) (w w' : World) (st : Args) :
  resolveArgs argv w = (Ret st, w') ->
  truthy_num (width st) = true
  /\ truthy_num (height st) = true
  /\ iso3List st <> []
  /\ (all st = false -> exists o, output st = Some o /\ o <> "").
Proof.
  rewrite resolveArgs_eq. pose proof (argvLoop_summary argv w) as Hsum.
  destruct (argvLoop argv initialArgs w) as [[st0 | code | e] w0];
    [ | discriminate | discriminate].
  intros [= <- <-]. destruct Hsum as (_ & Hw & Hh & Hl).
  destruct (defaultOutput_fields st0) as (El & Ew & Eh & _ & Ea).
  rewrite El, Ew, Eh, Ea.
  repeat split; auto. apply defaultOutput_single.
Qed.

Lemma resolved_options_are_usable_witness :
  exists st,
    resolveArgs ["--width"; "0"; "--height"; "x"; "--iso3"; ""; "-o"; ""]
                (Demo.boot Demo.disk)
    = (Ret st, Demo.boot Demo.disk)
    /\ truthy_num (width st) = true
    /\ iso3List st <> []
    /\ output st = Some "ETH.svg".
Proof.
  eexists. split; [reflexivity | ].
  destruct (@resolved_options_are_usable Demo.externals
              ["--width"; "0"; "--height"; "x"; "--iso3"; ""; "-o"; ""]
              (Demo.boot Demo.disk) (Demo.boot Demo.disk) _ eq_refl)
    as (Hw & _ & Hl & _).
  split; [exact Hw | split; [exact Hl | reflexivity]].
Defined.

(** X3.  Tokens that are not options (positional arguments, misspelt
    flags) change no option variable: each is reported by one warning, in
    order, and the loop goes on. *)
Theorem unrecognized_tokens_only_warn {X : Externals}
        (argv : list string) (st : Args) (w : World) :
  Forall (fun a => isOption a = false) argv ->
  argvLoop argv st w
  = (Ret st, {| fs := fs w;
                events := events w ++ map unrecognizedWarning argv |}).
Proof.
  intros Hargv.
  rewrite <- (app_nil_r argv) at 1.
  now rewrite (argvLoop_skips_unrecognized argv [] Hargv).
Qed.

Lemma unrecognized_tokens_only_warn_witness :
  resolveArgs ["ETH"; "--iso"; "USA"] (Demo.boot Demo.disk)
  = (Ret (defaultOutput initialArgs),
     @mkWorld Demo.externals Demo.disk
       [unrecognizedWarning "ETH"; unrecognizedWarning "--iso";
        unrecognizedWarning "USA"]).
Proof.
  assert (H : Forall (fun a => isOption a = false) ["ETH"; "--iso"; "USA"])
    by (repeat constructor).
  unfold resolveArgs, bind.
  now rewrite (@unrecognized_tokens_only_warn Demo.externals _ initialArgs
                 (Demo.boot Demo.disk) H).
Defined.

(** X4.  [--help] after tokens that are not options ends the whole
    script with status 0 once the warnings and the usage text are
    printed: the rest of the arguments is not read, the dataset is not
    looked for and nothing is written. *)
Theorem help_ends_the_script {X : Externals}
        (pre rest : list string) (w : World) :
  Forall (fun a => isOption a = false) pre ->
  runProcess (script (pre ++ "--help" :: rest)) w
  = (0%Z, {| fs := fs w;
             events := events w ++ map unrecognizedWarning pre
                         ++ [Stdout usage] |}).
Proof.
  intros Hpre. unfold runProcess, script, resolveArgs.
  unfold bind at 1. unfold bind at 1.
  rewrite (argvLoop_skips_unrecognized pre _ Hpre).
  cbn. now rewrite <- app_assoc.
Qed.

Lemma help_ends_the_script_witness :
  runProcess (script ["globe"; "--help"; "--all"])
             (Demo.boot Demo.disk_without_dataset)
  = (0%Z, @mkWorld Demo.externals Demo.disk_without_dataset
            [unrecognizedWarning "globe"; Stdout usage]).
Proof.
  assert (H : Forall (fun a => isOption a = false) ["globe"]) by (repeat constructor).
  exact (@help_ends_the_script Demo.externals ["globe"] ["--all"]
           (Demo.boot Demo.disk_without_dataset) H).
Defined.

(** ** Splitting and joining the list of codes *)

Lemma join_comma_cons (x : string) (l : list string) :
  l <> [] -> join_comma (x :: l) = (x ++ String ","%char (join_comma l))%string.
Proof. destruct l; [congruence | reflexivity]. Qed.

Lemma split_comma_cons (c : ascii) (r : string) :
  Ascii.eqb c ","%char = false ->
  exists h t, split_comma r = h :: t /\ split_comma (String c r) = String c h :: t.
Proof.
  intros Hc. cbn [split_comma]. rewrite Hc.
  destruct (split_comma r) as [ | h t] eqn:Hr.
  - now apply split_comma_nonempty in Hr.
  - now exists h, t.
Qed.

Lemma split_comma_append (x s : string) :
  commaFree x = true ->
  split_comma (x ++ String ","%char s) = x :: split_comma s.
Proof.
  induction x as [ | c x IH]; intros Hx; [reflexivity | ].
  cbn in Hx. apply andb_prop in Hx as (Hc & Hx).
  apply negb_true_iff in Hc.
  cbn [append split_comma]. rewrite Hc, (IH Hx). reflexivity.
Qed.

Lemma split_comma_single (x : string) :
  commaFree x = true -> split_comma x = [x].
Proof.
  induction x as [ | c x IH]; intros Hx; [reflexivity | ].
  cbn in Hx. apply andb_prop in Hx as (Hc & Hx).
  apply negb_true_iff in Hc.
  cbn [split_comma]. rewrite Hc, (IH Hx). reflexivity.
Qed.

Lemma split_join_comma (l : list string) :
  l <> [] -> Forall (fun x => commaFree x = true) l ->
  split_comma (join_comma l) = l.
Proof.
  intros Hl Hfree. induction Hfree as [ | x l Hx Hfree IH]; [congruence | ].
  destruct l as [ | y l'].
  - cbn. now apply split_comma_single.
  - rewrite join_comma_cons by discriminate.
    rewrite split_comma_append by exact Hx.
    f_equal. apply IH. discriminate.
Qed.

Lemma join_split_comma (s : string) : join_comma (split_comma s) = s.
Proof.
  induction s as [ | c r IH]; [reflexivity | ].
  cbn [split_comma]. destruct (Ascii.eqb c ","%char) eqn:Hc.
  - apply Ascii.eqb_eq in Hc. subst c.
    rewrite join_comma_cons by apply split_comma_nonempty.
    now rewrite IH.
  - destruct (split_comma r) as [ | h t] eqn:Hr.
    + now apply split_comma_nonempty in Hr.
    + destruct t as [ | h' t'].
      * cbn in IH |- *. now rewrite IH.
      * rewrite join_comma_cons in IH |- * by discriminate.
        cbn [append]. now rewrite IH.
Qed.

Lemma split_comma_pieces (s : string) :
  Forall (fun x => commaFree x = true) (split_comma s).
Proof.
  induction s as [ | c r IH]; [repeat constructor | ].
  cbn [split_comma]. destruct (Ascii.eqb c ","%char) eqn:Hc.
  - constructor; [reflexivity | exact IH].
  - destruct (split_comma r) as [ | h t]; [repeat constructor; cbn; now rewrite Hc | ].
    inversion IH as [ | ? ? Hh Ht]; subst.
    constructor; [cbn; now rewrite Hc, Hh | exact Ht].
Qed.

(** X5.  Splitting at commas and joining with commas are inverse to each
    other: joining the pieces of any text gives the text back, the pieces
    hold no comma, and splitting the join of a non-empty list of
    comma-free texts gives the list back. *)
Theorem split_and_join_round_trip (s : string) (l : list string) :
  join_comma (split_comma s) = s
  /\ Forall (fun x => commaFree x = true) (split_comma s)
  /\ split_comma s <> []
  /\ (l <> [] -> Forall (fun x => commaFree x = true) l ->
      split_comma (join_comma l) = l).
Proof.
  split; [apply join_split_comma | ].
  split; [apply split_comma_pieces | ].
  split; [apply split_comma_nonempty | apply split_join_comma].
Qed.

(** X6.  An [--iso3] option that is the last token, or whose value is the
    empty string, keeps the current codes: when none of them holds a
    comma, the new list is the current one with each code trimmed and
    upper-cased again, and the loop goes on. *)
Theorem iso3_without_value_keeps_codes {X : Externals}
        (o : string) (next : option string) (st : Args) (w : World) :
  In o ["--iso3"; "-i"] ->
  truthy_ostr next = false ->
  iso3List st <> [] ->
  Forall (fun x => commaFree x = true) (iso3List st) ->
  exists st',
    switchCase o next st w = (Ret (true, st'), w)
    /\ iso3List st' = map (fun s => toUpperCase (trim s)) (iso3List st)
    /\ width st' = width st /\ height st' = height st
    /\ output st' = output st /\ outdir st' = outdir st /\ all st' = all st.
Proof.
  intros Ho Hnext Hl Hfree.
  assert (Hor : or_str next (join_comma (iso3List st)) = join_comma (iso3List st)).
  { destruct next as [[ | c s] | ]; cbn in Hnext |- *; congruence. }
  destruct Ho as [<- | [<- | []]];
    (eexists; split; [reflexivity | ]; cbn;
     rewrite Hor, (split_join_comma _ Hl Hfree); repeat split).
Qed.

Lemma iso3_without_value_keeps_codes_witness :
  exists st',
    switchCase "-i" None
      {| iso3List := ["FRA"; "DEU"]; width := 800%float; height := 800%float;
         output := None; outdir := None; all := false |}
      (Demo.boot Demo.disk)
    = (Ret (true, st'), Demo.boot Demo.disk)
    /\ iso3List st' = ["FRA"; "DEU"].
Proof.
  assert (Ho : In "-i" ["--iso3"; "-i"]) by (cbn; auto).
  destruct (@iso3_without_value_keeps_codes Demo.externals "-i" None
              {| iso3List := ["FRA"; "DEU"]; width := 800%float;
                 height := 800%float; output := None; outdir := None;
                 all := false |}
              (Demo.boot Demo.disk) Ho eq_refl
              ltac:(discriminate) ltac:(repeat constructor))
    as (st' & Hstep & Hcodes & _).
  exists st'. split; [exact Hstep | exact Hcodes].
Defined.

(** ** Values of the dimension options *)

Lemma isOption_cases (t : string) :
  isOption t = true -> In t recognizedOptions.
Proof.
  unfold isOption. intros H. apply existsb_exists in H as (x & Hx & Heq).
  apply String.eqb_eq in Heq. now subst.
Qed.

Lemma parseInt_option_is_nan (t : string) :
  isOption t = true -> PrimFloat.is_nan (parseInt (Some t)) = true.
Proof.
  intros H. apply isOption_cases in H.
  repeat (destruct H as [<- | H]; [reflexivity | ]). destruct H.
Qed.

Lemma or_num_zero (a b : float) :
  PrimFloat.is_zero a = true -> or_num a b = b.
Proof.
  intros H. unfold or_num, truthy_num. rewrite H.
  now rewrite orb_true_r.
Qed.

Lemma digit_starts_number (c : ascii) (r : string) :
  isDigit c = true ->
  parseInt (Some (String c r))
  = let mathInt := digits_value (digits_prefix (String c r)) in
    if Z.eqb mathInt 0 then PrimFloat.zero else number_of_Z mathInt.
Proof.
  destruct c as [b0 b1 b2 b3 b4 b5 b6 b7].
  destruct b0, b1, b2, b3, b4, b5, b6, b7;
    intros H; try discriminate H; reflexivity.
Qed.

Lemma digits_prefix_stops (ds : string) (c : ascii) (r : string) :
  allDigits ds = true -> isDigit c = false ->
  digits_prefix (ds ++ String c r)%string = digits_prefix ds.
Proof.
  intros Hds Hc. induction ds as [ | d ds IH].
  - cbn. unfold isDigit in Hc. now destruct (digit_of c).
  - cbn in Hds. apply andb_prop in Hds as (Hd & Hds).
    cbn [append digits_prefix]. unfold isDigit in Hd.
    destruct (digit_of d); [ | discriminate]. now rewrite IH.
Qed.

(** X7.  A width or height option followed by any token the switch has a
    case for ([--all], [--help], another value option) reads that token
    as its value, finds no number in it and changes nothing: the loop
    goes on after the token as if the two were not there. *)
Theorem dimension_followed_by_option_is_dropped {X : Externals}
        (o t : string) (rest : list string) (st : Args) (w : World) :
  In o dimensionOptions ->
  isOption t = true ->
  argvLoop (o :: t :: rest) st w = argvLoop rest st w.
Proof.
  intros Ho Ht. apply argvLoop_consumed.
  apply dimension_option_unparsable; [exact Ho | ].
  now apply parseInt_option_is_nan.
Qed.

Lemma dimension_followed_by_option_is_dropped_witness :
  argvLoop ["-w"; "--help"; "--height"; "-o"] initialArgs (Demo.boot Demo.disk)
  = (Ret initialArgs, Demo.boot Demo.disk).
Proof.
  rewrite (@dimension_followed_by_option_is_dropped Demo.externals
             "-w" "--help" ["--height"; "-o"] initialArgs (Demo.boot Demo.disk));
    [ | cbn; auto | reflexivity].
  rewrite (@dimension_followed_by_option_is_dropped Demo.externals
             "--height" "-o" [] initialArgs (Demo.boot Demo.disk));
    [reflexivity | cbn; auto | reflexivity].
Defined.

(** X8.  A width or height value that parses to zero ([0], [000], [-0],
    [0x10]) is dropped like an unparsable one: every option variable
    keeps its value and nothing is printed. *)
Theorem zero_dimension_is_ignored {X : Externals}
        (o : string) (next : option string) (st : Args) (w : World) :
  In o dimensionOptions ->
  PrimFloat.is_zero (parseInt next) = true ->
  switchCase o next st w = (Ret (true, st), w).
Proof.
  intros Ho Hz. destruct st as [l wd ht op od al].
  destruct Ho as [<- | [<- | [<- | []]]]; cbn; unfold ret;
    now rewrite (or_num_zero _ _ Hz).
Qed.

Lemma zero_dimension_is_ignored_witness :
  switchCase "--width" (Some "0x10") initialArgs (Demo.boot Demo.disk)
  = (Ret (true, initialArgs), Demo.boot Demo.disk).
Proof.
  apply (@zero_dimension_is_ignored Demo.externals); [cbn; auto | reflexivity].
Defined.

(** X9.  A width or height value that starts with decimal digits is read
    up to the first character that is not a digit; what follows is
    ignored without a warning, so [700px] is read as [700]. *)
Theorem dimension_reads_leading_digits {X : Externals}
        (o : string) (d : ascii) (ds : string) (c : ascii) (r : string)
        (st : Args) (w : World) :
  In o dimensionOptions ->
  allDigits (String d ds) = true ->
  isDigit c = false ->
  parseInt (Some (String d ds ++ String c r)%string)
  = parseInt (Some (String d ds))
  /\ switchCase o (Some (String d ds ++ String c r)%string) st w
     = switchCase o (Some (String d ds)) st w.
Proof.
  intros Ho Hds Hc.
  assert (Hd : isDigit d = true) by (cbn in Hds; now apply andb_prop in Hds).
  assert (Hp : parseInt (Some (String d ds ++ String c r)%string)
               = parseInt (Some (String d ds))).
  { cbn [append]. rewrite !digit_starts_number by exact Hd.
    change (String d (ds ++ String c r)) with (String d ds ++ String c r)%string.
    now rewrite digits_prefix_stops. }
  split; [exact Hp | ].
  destruct Ho as [<- | [<- | [<- | []]]]; cbn -[parseInt append];
    now rewrite Hp.
Qed.

Lemma dimension_reads_leading_digits_witness :
  exists st,
    switchCase "--width" (Some "700px") initialArgs (Demo.boot Demo.disk)
    = (Ret (true, st), Demo.boot Demo.disk)
    /\ width st = 700%float.
Proof.
  destruct (@dimension_reads_leading_digits Demo.externals
              "--width" "7"%char "00" "p"%char "x" initialArgs
              (Demo.boot Demo.disk))
    as (_ & Hstep); [cbn; auto | reflexivity | reflexivity | ].
  eexists. split; [etransitivity; [exact Hstep | reflexivity] | reflexivity].
Defined.

(** ** Layers of the image *)

Section Layers.
Context {X : Externals}.

Lemma centeredProjection_settings (g : Globals) (h : list prim) :
  scale (centeredProjection g h)
  = Some (Math_min (width (args g)) (height (args g)) / 2 - 2)%float
  /\ translate (centeredProjection g h)
     = Some ((width (args g) / 2)%float, (height (args g) / 2)%float)
  /\ clipAngle (centeredProjection g h) = Some 90%float.
Proof.
  unfold centeredProjection.
  destruct (selected g h) as [ | d l]; cbn [length Nat.eqb negb];
    [now repeat split | ].
  destruct (geoBounds (d :: l)) as [[a b] [c e]]. now repeat split.
Qed.

End Layers.

(** X10.  The image is an [svg] element with the namespace, the width and
    the height as its attributes, in that order, and [2 + n] paths as
    children for [n] loaded features: the white ocean first, then one
    path per feature in dataset order, then the graticule of 30 degree
    steps, unfilled with a white stroke of width 1.  All of them are
    drawn with one projection, whose scale, translation and clip angle
    depend on the width and height only. *)
Theorem image_layers {X : Externals} (g : Globals) (h : list prim) :
  let p := centeredProjection g h in
  exists ocean,
    renderTree g h
    = Elem "svg"
        [("xmlns", "http://www.w3.org/2000/svg");
         ("width", Number_toString (width (args g)));
         ("height", Number_toString (height (args g)))]
        (ocean :: map (countryPath p h) (countries g) ++ [graticulePath p])
    /\ tagName ocean = "path"
    /\ getAttribute "fill" ocean = Some "white"
    /\ getAttribute "d" ocean = geoPath p Sphere
    /\ getAttribute "class" ocean = None
    /\ tagName (graticulePath p) = "path"
    /\ getAttribute "fill" (graticulePath p) = Some "none"
    /\ getAttribute "stroke" (graticulePath p) = Some "white"
    /\ getAttribute "stroke-width" (graticulePath p) = Some (Number_toString 1%float)
    /\ getAttribute "d" (graticulePath p) = geoPath p (Graticule 30%float 30%float)
    /\ length (childNodes (renderTree g h)) = 2 + length (countries g)
    /\ scale p = Some (Math_min (width (args g)) (height (args g)) / 2 - 2)%float
    /\ translate p = Some ((width (args g) / 2)%float, (height (args g) / 2)%float)
    /\ clipAngle p = Some 90%float.
Proof.
  intros p. unfold renderTree. fold p. unfold svgWithOcean.
  set (ocean := attr "fill" (Some "white")
                  (attr "d" (geoPath p Sphere) (createElement "path"))).
  exists ocean.
  assert (Htree :
            appendChild (graticulePath p)
              (fold_left (fun svg d => appendChild (countryPath p h d) svg)
                 (countries g)
                 (appendChild ocean
                    (attr "height" (Some (Number_toString (height (args g))))
                       (attr "width" (Some (Number_toString (width (args g))))
                          (attr "xmlns" (Some "http://www.w3.org/2000/svg")
                             (createElement "svg"))))))
            = Elem "svg"
                [("xmlns", "http://www.w3.org/2000/svg");
                 ("width", Number_toString (width (args g)));
                 ("height", Number_toString (height (args g)))]
                (ocean :: map (countryPath p h) (countries g) ++ [graticulePath p])).
  { cbn [attr createElement setAttribute set_assoc String.eqb Ascii.eqb Bool.eqb
         appendChild app].
    rewrite fold_left_appendChild. reflexivity. }
  rewrite Htree.
  pose proof (centeredProjection_settings g h) as (Hs & Ht & Hc).
  split; [reflexivity | ].
  assert (Hocean : tagName ocean = "path"
                   /\ getAttribute "fill" ocean = Some "white"
                   /\ getAttribute "d" ocean = geoPath p Sphere
                   /\ getAttribute "class" ocean = None).
  { unfold ocean. destruct (geoPath p Sphere); now repeat split. }
  assert (Hgr : tagName (graticulePath p) = "path"
                /\ getAttribute "fill" (graticulePath p) = Some "none"
                /\ getAttribute "stroke" (graticulePath p) = Some "white"
                /\ getAttribute "stroke-width" (graticulePath p)
                   = Some (Number_toString 1%float)
                /\ getAttribute "d" (graticulePath p)
                   = geoPath p (Graticule 30%float 30%float)).
  { unfold graticulePath. destruct (geoPath p (Graticule 30 30)); now repeat split. }
  destruct Hocean as (? & ? & ? & ?). destruct Hgr as (? & ? & ? & ? & ?).
  repeat (split; [assumption | ]).
  split; [ | now repeat split].
  cbn [childNodes length]. rewrite length_app, length_map. cbn.
  now rewrite Nat.add_comm.
Qed.

(** ** Writing the images *)

Section Writing.
Context {X : Externals}.

Lemma for_of_app {A} (body : A -> M unit) (l1 l2 : list A) (w : World) :
  for_of (l1 ++ l2) body w
  = match for_of l1 body w with
    | (Ret _, w1) => for_of l2 body w1
    | (Exit code, w1) => (Exit code, w1)
    | (Throw e, w1) => (Throw e, w1)
    end.
Proof.
  revert w. induction l1 as [ | x l1 IH]; intros w; [reflexivity | ].
  cbn [app for_of]. unfold bind.
  destruct (body x w) as [[[] | code | e] w1]; [apply IH | reflexivity | reflexivity].
Qed.

Lemma for_of_ext {A} (body1 body2 : A -> M unit) (l : list A) :
  (forall x w, body1 x w = body2 x w) ->
  forall w, for_of l body1 w = for_of l body2 w.
Proof.
  intros Hext. induction l as [ | x l IH]; intros w; [reflexivity | ].
  cbn [for_of]. unfold bind. rewrite Hext.
  destruct (body2 x w) as [[[] | code | e] w1]; auto.
Qed.

Lemma batchBody_failed_write (g : Globals) (dir : string) feat (w : World) :
  writeFileSync (fs w) (batchFile dir feat)
                (outerHTML (renderTree g [iso3 (properties feat)])) = None ->
  batchBody g dir feat w = (Throw WriteError, w).
Proof.
  intros Hw. unfold batchBody, generateSvg, bind, ret, fs_writeFileSync.
  fold (batchFile dir feat). now rewrite Hw.
Qed.

Lemma renderTree_agrees (g1 g2 : Globals) (h : list prim) :
  countries g1 = countries g2 ->
  width (args g1) = width (args g2) ->
  height (args g1) = height (args g2) ->
  renderTree g1 h = renderTree g2 h.
Proof.
  intros Hc Hw Hh.
  unfold renderTree, centeredProjection, selected. now rewrite Hc, Hw, Hh.
Qed.

End Writing.

Section BatchOutcome.
Context {X : Externals}.

Lemma batchBody_outcome (g : Globals) (dir : string) feat (w : World) :
  batchBody g dir feat w
  = match writeFileSync (fs w) (batchFile dir feat)
                        (outerHTML (renderTree g [iso3 (properties feat)])) with
    | Some m =>
        (Ret tt, {| fs := m; events := events w ++ featureEvents g dir [feat] |})
    | None => (Throw WriteError, w)
    end.
Proof.
  unfold batchBody, generateSvg, bind, ret, fs_writeFileSync, console_log, emit.
  fold (batchFile dir feat).
  destruct (writeFileSync (fs w) _ _); [ | reflexivity].
  cbn. now rewrite <- app_assoc.
Qed.

Lemma featureEvents_app (g : Globals) (dir : string)
      (l1 l2 : list (Feature Geometry)) :
  featureEvents g dir (l1 ++ l2) = featureEvents g dir l1 ++ featureEvents g dir l2.
Proof. unfold featureEvents. apply flat_map_app. Qed.

(** The batch loop either writes and reports every feature, or stops at
    the first write that fails, with the features before it written and
    reported. *)
Lemma for_of_batchBody_outcome (g : Globals) (dir : string)
      (l : list (Feature Geometry)) :
  forall w0 : World,
    match for_of l (batchBody g dir) w0 with
    | (Ret _, w') => events w' = events w0 ++ featureEvents g dir l
    | (Throw e, w1) =>
        e = WriteError
        /\ exists done feat todo,
            l = done ++ feat :: todo
            /\ events w1 = events w0 ++ featureEvents g dir done
            /\ writeFileSync (fs w1) (batchFile dir feat)
                 (outerHTML (renderTree g [iso3 (properties feat)])) = None
    | (Exit _, _) => False
    end.
Proof.
  induction l as [ | feat l IH]; intros w0.
  - cbn. now rewrite app_nil_r.
  - cbn [for_of]. unfold bind at 1. rewrite batchBody_outcome.
    destruct (writeFileSync (fs w0) _ _) as [m | ] eqn:Hw.
    + specialize (IH {| fs := m;
                        events := events w0 ++ featureEvents g dir [feat] |}).
      destruct (for_of l (batchBody g dir) _) as [[[] | code | e] w1].
      * rewrite IH. cbn [events].
        change (feat :: l) with ([feat] ++ l).
        now rewrite featureEvents_app, app_assoc.
      * exact IH.
      * destruct IH as (He & done & f & todo & Hl & Hev & Hfail).
        split; [exact He | ]. exists (feat :: done), f, todo.
        split; [now rewrite Hl | ]. split; [ | exact Hfail].
        rewrite Hev. cbn [events].
        change (feat :: done) with ([feat] ++ done).
        now rewrite featureEvents_app, app_assoc.
    + split; [reflexivity | ]. exists [], feat, l.
      split; [reflexivity | ]. split; [cbn; now rewrite app_nil_r | exact Hw].
Qed.

End BatchOutcome.

(** X11.  Batch mode either writes and reports every main feature, or
    stops at the first call that fails: a failed creation of the
    directory leaves nothing done; a failed write finds the directory
    step done and the features before it written and reported, the
    failed one is not reported as written and the features after it are
    not rendered.  The exception is not caught and ends the process with
    status 1. *)
Theorem batch_stops_at_failed_write {X : Externals}
        (g : Globals) (w : World) :
  all (args g) = true ->
  let dir := or_str (outdir (args g)) "." in
  let dirEvents := if existsSync (fs w) dir then [] else [Mkdir dir] in
  match main g w with
  | (Ret _, w') =>
      events w'
      = events w ++ dirEvents
          ++ featureEvents g dir (mainCountries (countries g))
  | (Throw e, w1) =>
      (e = MkdirError /\ w1 = w /\ existsSync (fs w) dir = false
       /\ mkdirSync_recursive (fs w) dir = None)
      \/ (e = WriteError
          /\ exists done feat todo,
              mainCountries (countries g) = done ++ feat :: todo
              /\ events w1 = events w ++ dirEvents ++ featureEvents g dir done
              /\ writeFileSync (fs w1) (batchFile dir feat)
                   (outerHTML (renderTree g [iso3 (properties feat)])) = None)
  | (Exit _, _) => False
  end
  /\ (forall e w1,
         main g w = (Throw e, w1) ->
         runProcess (main g) w = (1%Z, withEvent w1 (UncaughtReport e))).
Proof.
  intros Hall dir dirEvents. split.
  - unfold main. rewrite Hall. fold dir.
    unfold bind at 1. unfold fs_existsSync. subst dirEvents.
    destruct (existsSync (fs w) dir) eqn:Hdir; cbn [negb].
    + unfold bind at 1. unfold ret at 1.
      pose proof (for_of_batchBody_outcome g dir (mainCountries (countries g)) w)
        as Hrun.
      destruct (for_of _ _ w) as [[[] | code | e] w1];
        [exact Hrun | exact Hrun | right; exact Hrun].
    + unfold bind at 1. unfold fs_mkdirSync.
      destruct (mkdirSync_recursive (fs w) dir) as [m0 | ] eqn:Hm;
        [ | left; now repeat split].
      pose proof (for_of_batchBody_outcome g dir (mainCountries (countries g))
                    {| fs := m0; events := events w ++ [Mkdir dir] |})
        as Hrun.
      destruct (for_of _ _ _) as [[[] | code | e] w1].
      * rewrite Hrun. cbn [events]. now rewrite <- app_assoc.
      * exact Hrun.
      * right. destruct Hrun as (He & done & f & todo & Hl & Hev & Hfail).
        split; [exact He | ]. exists done, f, todo.
        split; [exact Hl | ]. split; [ | exact Hfail].
        rewrite Hev. cbn [events]. now rewrite <- app_assoc.
  - intros e w1 Hrun. unfold runProcess. now rewrite Hrun.
Qed.

Lemma batch_stops_at_failed_write_witness :
  exists w1,
    main (DemoQuota.globals Demo.batchArgs) (DemoQuota.boot Demo.disk)
    = (Throw WriteError, w1)
    /\ mkdirs (events w1) = ["maps"]
    /\ writes (events w1)
       = writes (featureEvents (DemoQuota.globals Demo.batchArgs) "maps" [Demo.ETH])
    /\ runProcess (main (DemoQuota.globals Demo.batchArgs))
                  (DemoQuota.boot Demo.disk)
       = (1%Z, withEvent w1 (UncaughtReport WriteError)).
Proof.
  exists (snd (main (DemoQuota.globals Demo.batchArgs) (DemoQuota.boot Demo.disk))).
  split; [vm_compute; reflexivity | ]. split; [vm_compute; reflexivity | ].
  split; [vm_compute; reflexivity | ].
  apply (proj2 (@batch_stops_at_failed_write DemoQuota.externals
                  (DemoQuota.globals Demo.batchArgs)
                  (DemoQuota.boot Demo.disk) eq_refl)).
  vm_compute. reflexivity.
Defined.

(** X12.  Outside batch mode the script renders the list of codes once
    and writes the one file at the output path, then reports it; it
    creates no directory.  When the write fails nothing is reported and
    the exception is not caught. *)
Theorem single_mode_writes_one_file {X : Externals}
        (g : Globals) (o : string) (w : World) :
  all (args g) = false ->
  output (args g) = Some o ->
  let markup := outerHTML (renderTree g (map PStr (iso3List (args g)))) in
  (forall m, writeFileSync (fs w) o markup = Some m ->
             main g w
             = (Ret tt,
                {| fs := m;
                   events := events w
                     ++ [WriteFile o markup;
                         Stdout ("✅  Written: " ++ o)%string] |}))
  /\ (writeFileSync (fs w) o markup = None ->
      main g w = (Throw WriteError, w)).
Proof.
  intros Hall Hout markup.
  unfold main. rewrite Hall, Hout.
  unfold generateSvg, bind, ret, fs_writeFileSync, console_log, emit.
  fold markup. split.
  - intros m ->. cbn. now rewrite <- app_assoc.
  - intros ->. reflexivity.
Qed.

Lemma single_mode_writes_one_file_witness :
  exists w',
    main (Demo.globals (defaultOutput initialArgs)) (Demo.boot Demo.disk)
    = (Ret tt, w')
    /\ map fst (writes (events w')) = ["ETH.svg"]
    /\ mkdirs (events w') = [].
Proof.
  destruct (@single_mode_writes_one_file Demo.externals
              (Demo.globals (defaultOutput initialArgs)) "ETH.svg"
              (Demo.boot Demo.disk) eq_refl eq_refl)
    as (Hok & _).
  eexists. split; [apply Hok; reflexivity | split; reflexivity].
Defined.

(** X13.  Without the dataset file the script writes nothing, whatever
    the arguments: unless [--help] is among them, it reads the
    arguments, prints the dataset diagnostic after the warnings for
    tokens that are not options, and exits with status 1. *)
Theorem missing_dataset_stops_before_any_write {X : Externals}
        (argv : list string) (w : World) :
  existsSync (fs w) inputTopoPath = false ->
  ~ In "--help" argv ->
  exists w',
    script argv w = (Exit 1%Z, w')
    /\ warningsFor argv w w' [datasetNotFound].
Proof.
  intros Hmissing Hhelp.
  pose proof (argvLoop_summary argv w) as Hsum.
  unfold script, resolveArgs. unfold bind at 1. unfold bind at 1.
  destruct (argvLoop argv initialArgs w) as [[st | code | e] w1].
  - destruct Hsum as ((Hfs & warned & Hev & Hincl & Hno) & _).
    unfold ret at 1. unfold bind at 1.
    rewrite loadCountries_eq, Hfs, Hmissing.
    eexists. split; [reflexivity | ].
    split; [exact Hfs | ]. exists warned. cbn [withEvent events].
    rewrite Hev, app_nil_r, <- app_assoc. auto.
  - destruct Hsum as (_ & Hin & _). contradiction.
  - contradiction.
Qed.

Lemma missing_dataset_stops_before_any_write_witness :
  exists w',
    script ["--all"; "--outdir"; "maps"; "extra"]
           (Demo.boot Demo.disk_without_dataset)
    = (Exit 1%Z, w')
    /\ warningsFor ["--all"; "--outdir"; "maps"; "extra"]
                   (Demo.boot Demo.disk_without_dataset) w' [datasetNotFound].
Proof.
  apply (@missing_dataset_stops_before_any_write Demo.externals);
    [reflexivity | cbn; intuition discriminate].
Defined.

(** X14.  Batch mode ignores the list of codes and the output path, and
    single mode ignores the output directory: two sets of option
    variables that agree on the mode, the width, the height and what the
    mode reads make the main block do the same thing in any one
    environment. *)
Theorem modes_ignore_unrelated_options {X : Externals}
        (g1 g2 : Globals) (w : World) :
  countries g1 = countries g2 ->
  all (args g1) = all (args g2) ->
  width (args g1) = width (args g2) ->
  height (args g1) = height (args g2) ->
  (if all (args g1)
   then outdir (args g1) = outdir (args g2)
   else iso3List (args g1) = iso3List (args g2)
        /\ output (args g1) = output (args g2)) ->
  main g1 w = main g2 w.
Proof.
  intros Hc Ha Hw Hh Hmode. unfold main. rewrite <- Ha.
  destruct (all (args g1)).
  - rewrite <- Hmode, <- Hc. unfold bind at 1 3.
    destruct (fs_existsSync (or_str (outdir (args g1)) ".") w) as [[present | code | e] w0];
      [ | reflexivity | reflexivity].
    unfold bind.
    destruct ((if negb present
               then fs_mkdirSync (or_str (outdir (args g1)) ".")
               else ret tt) w0) as [[[] | code | e] w1];
      [ | reflexivity | reflexivity].
    apply for_of_ext. intros feat w2.
    unfold batchBody, generateSvg.
    now rewrite (renderTree_agrees g1 g2 _ Hc Hw Hh).
  - destruct Hmode as (Hl & Ho). rewrite <- Hl, <- Ho.
    destruct (output (args g1)); [ | reflexivity].
    unfold generateSvg.
    now rewrite (renderTree_agrees g1 g2 _ Hc Hw Hh).
Qed.

Lemma modes_ignore_unrelated_options_witness :
  main (Demo.globals Demo.batchArgs) (Demo.boot Demo.disk)
  = main (Demo.globals
            {| iso3List := ["USA"; "FRA"]; width := 800%float;
               height := 800%float; output := Some "x.svg";
               outdir := Some "maps"; all := true |})
         (Demo.boot Demo.disk).
Proof.
  apply (@modes_ignore_unrelated_options Demo.externals); reflexivity.
Defined.

(** ** The single-country script *)

Section SingleCountry.
Context {X : Externals}.

Lemma find_first {A} (p : A -> bool) (l : list A) (d : A) :
  List.find p l = Some d ->
  exists before after,
    l = before ++ d :: after
    /\ Forall (fun x => p x = false) before
    /\ p d = true.
Proof.
  induction l as [ | x l IH]; cbn; [discriminate | ].
  destruct (p x) eqn:Hx.
  - intros [= <-]. exists [], l. repeat split; auto.
  - intros Hfind. destruct (IH Hfind) as (before & after & -> & Hb & Hd).
    exists (x :: before), after. repeat split; auto.
Qed.

Lemma find_nothing {A} (p : A -> bool) (l : list A) :
  List.find p l = None -> Forall (fun x => p x = false) l.
Proof.
  intros H. apply Forall_forall. intros x Hx.
  exact (List.find_none p l H x Hx).
Qed.

Lemma legacy_generateSvg_eq (g : CreateGlobe.Globals) (c : prim) (w : World) :
  CreateGlobe.generateSvg g c w
  = (Ret (legacyMarkup g c),
     match CreateGlobe.target g c with
     | Some _ => w
     | None => withEvent w (Stderr ("⚠️  iso3 code not found: " ++ template c)%string)
     end).
Proof.
  unfold CreateGlobe.generateSvg, legacyMarkup. unfold bind.
  rewrite legacy_centerProjection.
  now destruct (CreateGlobe.target g c).
Qed.





End SingleCountry.

(** X15.  The single-country script centers the globe on the centroid of
    the first loaded feature, in dataset order, whose code is exactly the
    requested one, and prints nothing; when no feature has the code it
    leaves the rotation unset, prints one warning naming the code and
    still renders. *)
Theorem single_country_centers_on_first_match {X : Externals}
        (g : CreateGlobe.Globals) (c : prim) (w : World) :
  match CreateGlobe.target g c with
  | Some d =>
      (exists before after,
          CreateGlobe.countries g = before ++ d :: after
          /\ Forall (fun x => strictEq (iso3 (properties x)) c = false) before
          /\ strictEq (iso3 (properties d)) c = true)
      /\ (exists p, CreateGlobe.centerProjection g c w = (Ret p, w)
                    /\ rotation p = negated (geoCentroid d))
      /\ CreateGlobe.generateSvg g c w = (Ret (legacyMarkup g c), w)
  | None =>
      Forall (fun x => strictEq (iso3 (properties x)) c = false)
             (CreateGlobe.countries g)
      /\ (exists p,
             CreateGlobe.centerProjection g c w
             = (Ret p,
                withEvent w (Stderr ("⚠️  iso3 code not found: " ++ template c)%string))
             /\ rotate p = None)
      /\ CreateGlobe.generateSvg g c w
         = (Ret (legacyMarkup g c),
            withEvent w (Stderr ("⚠️  iso3 code not found: " ++ template c)%string))
  end.
Proof.
  pose proof (legacy_generateSvg_eq g c w) as Hgen.
  pose proof (legacy_centerProjection g c w) as Hcen.
  destruct (CreateGlobe.target g c) as [d | ] eqn:Ht.
  - split; [ | split; [ | exact Hgen]].
    + unfold CreateGlobe.target, find in Ht. now apply find_first in Ht.
    + eexists. split; [exact Hcen | reflexivity].
  - split; [ | split; [ | exact Hgen]].
    + unfold CreateGlobe.target, find in Ht. now apply find_nothing in Ht.
    + eexists. split; [exact Hcen | reflexivity].
Qed.



Lemma includes_one_string (s : string) (v : prim) :
  includes [PStr s] v = strictEq v (PStr s).
Proof.
  unfold includes. cbn [existsb]. rewrite orb_false_r.
  destruct v as [ | | b | x | t]; cbn; try reflexivity.
  apply String.eqb_sym.
Qed.

Lemma fold_left_pointwise {A B} (f1 f2 : A -> B -> A) (l : list B) :
  (forall a x, f1 a x = f2 a x) ->
  forall init, fold_left f1 l init = fold_left f2 l init.
Proof.
  intros Hext. induction l as [ | x l IH]; intros init; [reflexivity | ].
  cbn. now rewrite Hext, IH.
Qed.

(** X17.  For one code given as a string the two scripts draw the same
    image up to the centering: with the same width, height and features
    they build the same tree, path for path, from whatever projection
    they are given.  They differ in the rotation they choose (midpoint of
    the bounding box of all features with the code, centroid of the first
    one) and in the warning. *)
Theorem scripts_agree_on_one_code {X : Externals}
        (g : Globals) (lg : CreateGlobe.Globals) (s : string) :
  countries g = CreateGlobe.countries lg ->
  width (args g) = CreateGlobe.width (CreateGlobe.args lg) ->
  height (args g) = CreateGlobe.height (CreateGlobe.args lg) ->
  (forall p d, countryPath p [PStr s] d = CreateGlobe.countryPath p (PStr s) d)
  /\ renderTree g [PStr s]
     = CreateGlobe.renderTree lg (centeredProjection g [PStr s]) (PStr s)
  /\ (forall d, In d (selected g [PStr s])
                <-> In d (countries g)
                    /\ strictEq (iso3 (properties d)) (PStr s) = true)
  /\ CreateGlobe.target lg (PStr s) = hd_error (selected g [PStr s]).
Proof.
  intros Hc Hw Hh.
  assert (Hpath : forall p d,
             countryPath p [PStr s] d = CreateGlobe.countryPath p (PStr s) d).
  { intros p d. unfold countryPath, CreateGlobe.countryPath.
    now rewrite includes_one_string. }
  split; [exact Hpath | split; [ | split]].
  - unfold renderTree, CreateGlobe.renderTree. rewrite <- Hc, <- Hw, <- Hh.
    f_equal. apply fold_left_pointwise. intros svg d. now rewrite Hpath.
  - intros d. unfold selected. rewrite filter_In. now rewrite includes_one_string.
  - unfold CreateGlobe.target, find, selected. rewrite <- Hc. clear Hc.
    induction (countries g) as [ | d l IH]; [reflexivity | ].
    cbn [List.find filter]. rewrite includes_one_string.
    destruct (strictEq (iso3 (properties d)) (PStr s)); [reflexivity | exact IH].
Qed.

Lemma scripts_agree_on_one_code_witness :
  CreateGlobe.target
    (@CreateGlobe.mkGlobals Demo.externals CreateGlobe.initialArgs Demo.features)
    (PStr "USA")
  = Some Demo.USA_secondary
  /\ selected (Demo.globals initialArgs) [PStr "USA"]
     = [Demo.USA_secondary; Demo.USA].
Proof.
  destruct (@scripts_agree_on_one_code Demo.externals
              (Demo.globals initialArgs)
              (@CreateGlobe.mkGlobals Demo.externals CreateGlobe.initialArgs
                 Demo.features)
              "USA" eq_refl eq_refl eq_refl)
    as (_ & _ & _ & Htarget).
  split; [rewrite Htarget; reflexivity | reflexivity].
Defined.

(** ** Repeated options *)

Section Repeated.
Context {X : Externals}.

Ltac keep_component H :=
  destruct H as [H | H]; [left; exact H | right; try exact H; now rewrite H].

(** The switch treats two states that differ in one variable alike: same
    outcome, same output, and states that still differ in that variable
    at most. *)
Lemma switchCase_sameExcept (group : list string) (a : string)
      (next : option string) (st1 st2 : Args) (w : World) :
  sameExcept group st1 st2 ->
  match switchCase a next st1 w, switchCase a next st2 w with
  | (Ret (c1, s1), w1), (Ret (c2, s2), w2) =>
      c1 = c2 /\ w1 = w2 /\ sameExcept group s1 s2
  | (Exit c1, w1), (Exit c2, w2) => c1 = c2 /\ w1 = w2
  | _, _ => False
  end.
Proof.
  intros (H1 & H2 & H3 & H4 & H5 & H6). unfold switchCase.
  destruct (String.eqb a "--help"); [now cbn | ].
  destruct (String.eqb a "--iso3" || String.eqb a "-i").
  { cbn. repeat split; auto. keep_component H1. }
  destruct (String.eqb a "--width" || String.eqb a "-w").
  { cbn. repeat split; auto. keep_component H2. }
  destruct (String.eqb a "--height").
  { cbn. repeat split; auto. keep_component H3. }
  destruct (String.eqb a "--output" || String.eqb a "-o").
  { cbn. repeat split; auto. keep_component H4. }
  destruct (String.eqb a "--outdir" || String.eqb a "-d").
  { cbn. repeat split; auto. keep_component H5. }
  destruct (String.eqb a "--all").
  { cbn. repeat split; auto. }
  cbn. repeat split; auto.
Qed.

(** An option of the group changes the variable of the group only. *)
Lemma switchCase_within_group (group : list string) (o a : string)
      (st : Args) (w : World) :
  In group optionGroups -> In o group ->
  exists st1,
    switchCase o (Some a) st w = (Ret (true, st1), w)
    /\ sameExcept group st1 st.
Proof.
  intros Hg Ho.
  repeat (destruct Hg as [<- | Hg];
          [repeat (destruct Ho as [<- | Ho];
                   [eexists; split; [reflexivity | ];
                    unfold sameExcept; cbn; repeat split; auto
                   | ]); destruct Ho
          | ]).
  destruct Hg.
Qed.

(** An effective value makes the states equal again. *)
Lemma switchCase_effective (group : list string) (o b : string)
      (st1 st2 : Args) (w : World) :
  In group optionGroups -> In o group ->
  effectiveValue o b = true ->
  sameExcept group st1 st2 ->
  switchCase o (Some b) st1 w = switchCase o (Some b) st2 w.
Proof.
  intros Hg Ho Heff (H1 & H2 & H3 & H4 & H5 & H6).
  destruct st1 as [l1 w1 h1 o1 d1 a1], st2 as [l2 w2 h2 o2 d2 a2].
  cbn in H1, H2, H3, H4, H5, H6. subst a2.
  repeat (destruct Hg as [<- | Hg];
          [repeat (destruct Ho as [<- | Ho];
                   [cbn in Heff;
                    repeat match goal with
                           | H : _ \/ _ |- _ =>
                               destruct H as [H | H]; [try discriminate H | subst]
                           end;
                    cbn -[parseInt split_comma trim or_num or_str or_ostr
                          join_comma];
                    unfold ret;
                    first [ reflexivity
                          | destruct b; [discriminate Heff | reflexivity]
                          | unfold or_num; rewrite Heff; reflexivity ]
                   | ]); destruct Ho
          | ]).
  destruct Hg.
Qed.

Lemma argvLoop_forgets_overridden (group : list string) (o2 b : string)
      (rest : list string) (n : nat) :
  In group optionGroups -> In o2 group ->
  effectiveValue o2 b = true ->
  forall (mid : list string) (st1 st2 : Args) (w : World),
    length mid <= n ->
    aligned mid = true ->
    sameExcept group st1 st2 ->
    argvLoop (mid ++ o2 :: b :: rest) st1 w
    = argvLoop (mid ++ o2 :: b :: rest) st2 w.
Proof.
  intros Hg Ho Heff.
  induction n as [ | n IH]; intros mid st1 st2 w Hlen Hal Hs.
  - destruct mid; [ | inversion Hlen].
    cbn [app argvLoop hd_error]. unfold bind.
    now rewrite (switchCase_effective group o2 b st1 st2 w Hg Ho Heff Hs).
  - destruct mid as [ | a mid'].
    { cbn [app argvLoop hd_error]. unfold bind.
      now rewrite (switchCase_effective group o2 b st1 st2 w Hg Ho Heff Hs). }
    cbn in Hlen. apply le_S_n in Hlen.
    cbn [app argvLoop]. unfold bind.
    pose proof (switchCase_sameExcept group a
                  (hd_error (mid' ++ o2 :: b :: rest)) st1 st2 w Hs) as Hstep.
    cbn [aligned] in Hal.
    destruct (isValueOption a) eqn:Evalue.
    + destruct (switchCase_value_option a (hd_error (mid' ++ o2 :: b :: rest))
                  st1 w Evalue) as (s1 & E1).
      destruct (switchCase_value_option a (hd_error (mid' ++ o2 :: b :: rest))
                  st2 w Evalue) as (s2 & E2).
      rewrite E1, E2 in Hstep |- *. destruct Hstep as (_ & _ & Hs').
      destruct mid' as [ | t mid'']; [discriminate Hal | ].
      cbn [app]. apply IH; [ | exact Hal | exact Hs'].
      cbn in Hlen. now apply Nat.lt_le_incl.
    + destruct (switchCase a (hd_error (mid' ++ o2 :: b :: rest)) st1 w)
        as [[[c1 s1] | code1 | e1] w1] eqn:E1;
      destruct (switchCase a (hd_error (mid' ++ o2 :: b :: rest)) st2 w)
        as [[[c2 s2] | code2 | e2] w2] eqn:E2;
        try contradiction.
      * destruct Hstep as (<- & <- & Hs').
        destruct c1.
        -- exfalso. revert E1. unfold switchCase.
           unfold isValueOption, valueOptions in Evalue. cbn [existsb] in Evalue.
           repeat (apply orb_false_elim in Evalue as (? & Evalue)).
           repeat match goal with
                  | E : String.eqb a ?s = false |- _ => rewrite E; clear E
                  end.
           cbn [orb].
           destruct (String.eqb a "--help"); [discriminate | ].
           destruct (String.eqb a "--all"); discriminate.
        -- now apply IH.
      * destruct Hstep as (<- & <-). reflexivity.
Qed.

End Repeated.

(** X18.  When an option is given twice, under either of its spellings,
    with any complete options between the two occurrences, and the
    second value is effective, the first occurrence has no effect: the
    run is the one without it, so the later value wins. *)
Theorem later_value_overrides_earlier {X : Externals}
        (group : list string) (o1 o2 a b : string) (mid rest : list string)
        (st : Args) (w : World) :
  In group optionGroups -> In o1 group -> In o2 group ->
  aligned mid = true ->
  effectiveValue o2 b = true ->
  argvLoop (o1 :: a :: mid ++ o2 :: b :: rest) st w
  = argvLoop (mid ++ o2 :: b :: rest) st w.
Proof.
  intros Hg H1 H2 Hal Heff.
  destruct (switchCase_within_group group o1 a st w Hg H1) as (st1 & Hstep & Hs).
  rewrite (argvLoop_consumed o1 a _ st st1 w Hstep).
  apply (argvLoop_forgets_overridden group o2 b rest (length mid) Hg H2 Heff);
    [apply le_n | exact Hal | exact Hs].
Qed.

Lemma later_value_overrides_earlier_witness :
  argvLoop ["-w"; "300"; "--all"; "-o"; "x.svg"; "oops"; "--width"; "500";
            "--height"; "9"]
           initialArgs (Demo.boot Demo.disk)
  = argvLoop ["--all"; "-o"; "x.svg"; "oops"; "--width"; "500"; "--height"; "9"]
             initialArgs (Demo.boot Demo.disk).
Proof.
  apply (@later_value_overrides_earlier Demo.externals ["--width"; "-w"]
           "-w" "--width" "300" "500" ["--all"; "-o"; "x.svg"; "oops"]
           ["--height"; "9"]);
    [cbn; auto | cbn; auto | cbn; auto | reflexivity | reflexivity].
Defined.
